(** * Traffic Run: the game-session transitions of [src/stackr]

    A shallow embedding of [src/stackr/state.ts] and
    [src/stackr/transitions.ts], and the properties of the five state
    transition functions (createGame, userMove,
    generateObstacleAndScoreUpdate, gameOver, resetGame).

    Modelling conventions.
    - A JavaScript [number] holding an integer is a [Z]; [a % b] is the
      truncating remainder [Z.rem] (sign of the dividend), which agrees
      with [Z.modulo] on the non-negative values a [UINT] input can take;
      [a + b] is the exact sum rounded as a double rounds it
      ([js_add]), which is the exact sum up to [MAX_SAFE_INTEGER].
    - [state.games], a [Record<string, Game>], is a [gmap string Game] of
      the object's own keys; [Object.keys(state.games).length] is its
      [size]. Reading [state.games[gameId]] also finds the members the
      object inherits from [Object.prototype] ([inherited]).
    - A handler either returns or throws ([Result]); the machine keeps
      its state when a handler throws.
    - A handler receives [emit]; here it returns the list of emitted
      events, in emission order, next to the state it returns.
    - [game.f = v], with [game] the object stored at
      [state.games[gameId]], is an update of the map at [gameId].
    - A template literal prints an integer in decimal ([pretty]), as
      JavaScript does below 1e21.
    - [hashMessage] comes from the [ethers] package and is a parameter. *)

From Stdlib Require Import ZArith Ascii String List.
From stdpp Require Import gmap strings pretty.

Local Open Scope string_scope.
Local Open Scope Z_scope.

(** ** Data model ([state.ts]) *)

Record Obstacle : Type := {
  lane : Z;
  z : Z
}.

Record Game : Type := {
  gameId : string;
  owner : string;
  carPosition : Z;
  speed : Z;
  score : Z;
  obstacle : Obstacle;
  isGameOver : bool;
  startedAt : Z;
  endedAt : option Z
}.

Record AppState : Type := {
  games : gmap string Game
}.

Definition initialState : AppState := {| games := ∅ |}.

(** ** Handler environment *)

Inductive EventValue : Type :=
  | VString (s : string)
  | VNumber (n : Z).

Record Event : Type := {
  name : string;
  value : EventValue
}.

Record Block : Type := {
  block_timestamp : Z
}.

(** [String.prototype.toLowerCase] on the ASCII range, which is where
    address strings live. *)
Definition lower_ascii (c : ascii) : ascii :=
  let n := nat_of_ascii c in
  if ((65 <=? n) && (n <=? 90))%nat then ascii_of_nat (n + 32) else c.

Fixpoint toLowerCase (s : string) : string :=
  match s with
  | EmptyString => EmptyString
  | String c r => String (lower_ascii c) (toLowerCase r)
  end.

(** ** Numbers *)

(** [Number.MAX_SAFE_INTEGER], 2^53 - 1. *)
Definition MAX_SAFE_INTEGER : Z := 9007199254740991.

(** [Number.isSafeInteger] on an integer. *)
Definition safe (x : Z) : Prop := Z.abs x <= MAX_SAFE_INTEGER.

(** The double nearest to an integer: 53 significant bits, ties to the
    even significand. (Overflow to [Infinity], beyond 1.7e308, is left
    out.) *)
Definition round_double (x : Z) : Z :=
  let a := Z.abs x in
  if a <? 2 ^ 53 then x
  else
    let e := Z.log2 a - 52 in
    let q := a / 2 ^ e in
    let r := a mod 2 ^ e in
    let half := 2 ^ (e - 1) in
    let q' := if (half <? r) || ((r =? half) && Z.odd q) then q + 1 else q in
    Z.sgn x * (q' * 2 ^ e).

(** [a + b] on integer-valued doubles. *)
Definition js_add (a b : Z) : Z := round_double (a + b).

(** ** Property reads on [state.games] *)

(** The names every plain object inherits from [Object.prototype]; each
    reads as a function or an object, which is truthy and has no
    [owner]. *)
Definition prototype_keys : list string :=
  [ "constructor"; "__defineGetter__"; "__defineSetter__";
    "hasOwnProperty"; "__lookupGetter__"; "__lookupSetter__";
    "isPrototypeOf"; "propertyIsEnumerable"; "toString"; "valueOf";
    "__proto__"; "toLocaleString" ].

Definition inherited (k : string) : bool :=
  existsb (String.eqb k) prototype_keys.

(** In-place field assignments on a stored game. *)
Definition set_carPosition (g : Game) (v : Z) : Game :=
  {| gameId := gameId g; owner := owner g; carPosition := v;
     speed := speed g; score := score g; obstacle := obstacle g;
     isGameOver := isGameOver g; startedAt := startedAt g;
     endedAt := endedAt g |}.

Definition set_obstacle (g : Game) (o : Obstacle) : Game :=
  {| gameId := gameId g; owner := owner g; carPosition := carPosition g;
     speed := speed g; score := score g; obstacle := o;
     isGameOver := isGameOver g; startedAt := startedAt g;
     endedAt := endedAt g |}.

Definition set_score (g : Game) (v : Z) : Game :=
  {| gameId := gameId g; owner := owner g; carPosition := carPosition g;
     speed := speed g; score := v; obstacle := obstacle g;
     isGameOver := isGameOver g; startedAt := startedAt g;
     endedAt := endedAt g |}.

Definition set_isGameOver (g : Game) (b : bool) : Game :=
  {| gameId := gameId g; owner := owner g; carPosition := carPosition g;
     speed := speed g; score := score g; obstacle := obstacle g;
     isGameOver := b; startedAt := startedAt g;
     endedAt := endedAt g |}.

Definition set_endedAt (g : Game) (t : option Z) : Game :=
  {| gameId := gameId g; owner := owner g; carPosition := carPosition g;
     speed := speed g; score := score g; obstacle := obstacle g;
     isGameOver := isGameOver g; startedAt := startedAt g;
     endedAt := t |}.

(** [state.games[k] = g] *)
Definition store (k : string) (g : Game) (state : AppState) : AppState :=
  {| games := <[k := g]> (games state) |}.

(** ** Transitions ([transitions.ts]) *)

(** [function generateObstacles(timestamp)] *)
Definition generateObstacles (timestamp : Z) : Obstacle :=
  {| lane := Z.rem timestamp 2; z := -70 |}.

(** What a handler call comes to: the state and events it returns, or
    the error it throws. *)
Inductive Result : Type :=
  | Returns (out : AppState * list Event)
  | Throws (error : string).

(** [game.owner.toLowerCase()] when [game] is an inherited member:
    [game.owner] is [undefined]. *)
Definition TypeError : string :=
  "TypeError: Cannot read properties of undefined (reading 'toLowerCase')".

(** The state the machine holds after a handler call: the returned one,
    or the one it had when the handler threw. *)
Definition next_state (state : AppState) (r : Result) : AppState :=
  match r with
  | Returns out => fst out
  | Throws _ => state
  end.

(** The events of a handler call that returned. *)
Definition logs_of (r : Result) : list Event :=
  match r with
  | Returns out => snd out
  | Throws _ => []
  end.

(** The [gameId] input of a handler is written [gid], and the [owner] and
    [startedAt] inputs of createGame [owner_in] and [startedAt_in]: the
    plain names are the fields of [Game]. *)
Section Transitions.

(** [hashMessage] of the [ethers] package. *)
Variable hashMessage : string -> string.

(** The game id a createGame call derives. *)
Definition newGameId (msgSender : string) (block : Block)
    (state : AppState) : string :=
  hashMessage (msgSender +:+ "::" +:+ pretty (block_timestamp block)
               +:+ "::" +:+ pretty (size (games state))).

Definition createGame (state : AppState)
    (owner_in : string) (initialSpeed startedAt_in : Z)
    (msgSender : string) (block : Block) : AppState * list Event :=
  if negb (String.eqb (toLowerCase msgSender) (toLowerCase owner_in)) then
    (state,
     [ {| name := "InvalidSigner";
          value := VString (msgSender +:+
                            " is not authorized to create a game.") |} ])
  else
    let gid := newGameId msgSender block state in
    (store gid
       {| gameId := gid;
          owner := owner_in;
          carPosition := 1;
          speed := initialSpeed;
          score := -1;
          obstacle := generateObstacles (block_timestamp block);
          isGameOver := false;
          startedAt := startedAt_in;
          endedAt := None |} state,
     [ {| name := "GameCreated"; value := VString gid |} ]).

Definition userMove (state : AppState)
    (gid actionType : string) (timestamp : Z)
    (msgSender : string) (block : Block) : Result :=
  match games state !! gid with
  | None =>
    if inherited gid then Throws TypeError
    else
      Returns
        (state,
         [ {| name := "GameNotFound";
              value := VString ("Game ID " +:+ gid +:+
                                " does not exist.") |} ])
  | Some game =>
    if negb (String.eqb (toLowerCase (owner game)) (toLowerCase msgSender))
    then
      Returns
        (state,
         [ {| name := "UnauthorizedAction";
              value := VString (msgSender +:+
                " is not authorized to perform actions in game " +:+ gid
                +:+ ".") |} ])
    else if String.eqb actionType "moveLeft" then
      if Z.eqb (carPosition game) 1 then
        let game' := set_carPosition game 0 in
        Returns
          (store gid game' state,
           [ {| name := "CarMovedLeft";
                value := VNumber (carPosition game') |} ])
      else Returns (state, [])
    else if String.eqb actionType "moveRight" then
      if Z.eqb (carPosition game) 0 then
        let game' := set_carPosition game 1 in
        Returns
          (store gid game' state,
           [ {| name := "CarMovedRight";
                value := VNumber (carPosition game') |} ])
      else Returns (state, [])
    else
      Returns
        (state,
         [ {| name := "InvalidAction";
              value := VString ("Game " +:+ gid +:+
                                ": Invalid action type " +:+ actionType
                                +:+ ".") |} ])
  end.

Definition generateObstacleAndScoreUpdate (state : AppState)
    (gid : string) (timestamp : Z)
    (msgSender : string) (block : Block) : Result :=
  match games state !! gid with
  | None =>
    if inherited gid then Throws TypeError
    else
      Returns
        (state,
         [ {| name := "GameNotFound";
              value := VString ("Game ID " +:+ gid +:+
                                " does not exist.") |} ])
  | Some game =>
    if negb (String.eqb (toLowerCase (owner game)) (toLowerCase msgSender))
    then
      Returns
        (state,
         [ {| name := "UnauthorizedAction";
              value := VString (msgSender +:+
                " is not authorized to update the game " +:+ gid
                +:+ ".") |} ])
    else
      let game1 := set_obstacle game (generateObstacles timestamp) in
      let game2 := set_score game1 (js_add (score game1) (speed game1)) in
      Returns
        (store gid game2 state,
         [ {| name := "ObstacleGenerated";
              value := VString ("New obstacle generated in lane " +:+
                                pretty (Z.rem timestamp 2)) |};
           {| name := "ScoreUpdated";
              value := VString ("Game " +:+ gid +:+ ": Score is now " +:+
                                pretty (score game2) +:+ ".") |} ])
  end.

Definition gameOver (state : AppState)
    (gid : string) (over : bool) (timestamp : Z)
    (msgSender : string) : Result :=
  match games state !! gid with
  | None =>
    if inherited gid then Throws TypeError
    else
      Returns
        (state,
         [ {| name := "GameNotFound";
              value := VString ("Game ID " +:+ gid +:+
                                " does not exist.") |} ])
  | Some game =>
    if negb (String.eqb (toLowerCase (owner game)) (toLowerCase msgSender))
    then
      Returns
        (state,
         [ {| name := "UnauthorizedAction";
              value := VString (msgSender +:+
                " is not authorized to end game " +:+ gid +:+ ".") |} ])
    else
      let game1 := set_isGameOver game over in
      let game2 := set_endedAt game1 (Some timestamp) in
      Returns
        (store gid game2 state,
         [ {| name := "GameOver";
              value := VString ("Game " +:+ gid +:+ " is now " +:+
                                (if over then "over" else "active")
                                +:+ ".") |} ])
  end.

Definition resetGame (state : AppState)
    (gid : string) (timestamp : Z)
    (msgSender : string) (block : Block) : Result :=
  match games state !! gid with
  | None =>
    if inherited gid then Throws TypeError
    else
      Returns
        (state,
         [ {| name := "GameNotFound";
              value := VString ("Game ID " +:+ gid +:+
                                " does not exist.") |} ])
  | Some game =>
    if negb (String.eqb (toLowerCase (owner game)) (toLowerCase msgSender))
    then
      Returns
        (state,
         [ {| name := "UnauthorizedReset";
              value := VString (msgSender +:+
                " is not authorized to reset the game " +:+ gid
                +:+ ".") |} ])
    else
      Returns
        (store gid
           {| gameId := gameId game;
              owner := owner game;
              carPosition := 1;
              speed := 1;
              score := 0;
              obstacle := generateObstacles (block_timestamp block);
              isGameOver := false;
              startedAt := startedAt game;
              endedAt := None |} state,
         [ {| name := "GameReset";
              value := VString ("Game " +:+ gid +:+
                                " has been reset.") |} ])
  end.

(** ** The machine: actions and their dispatch ([transitions],
    [machine.ts]) *)

Inductive Action : Type :=
  | CreateGame (owner_in : string) (initialSpeed startedAt_in : Z)
  | UserMove (gid actionType : string) (timestamp : Z)
  | GenerateObstacleAndScoreUpdate (gid : string) (timestamp : Z)
  | GameOver (gid : string) (over : bool) (timestamp : Z)
  | ResetGame (gid : string) (timestamp : Z).

(** One submitted action: what to do, who signed it, in which block. *)
Record Submitted : Type := {
  action : Action;
  msgSender : string;
  block : Block
}.

Definition transitions (a : Submitted) (state : AppState) : Result :=
  match action a with
  | CreateGame o v t =>
      Returns (createGame state o v t (msgSender a) (block a))
  | UserMove g k t => userMove state g k t (msgSender a) (block a)
  | GenerateObstacleAndScoreUpdate g t =>
      generateObstacleAndScoreUpdate state g t (msgSender a) (block a)
  | GameOver g o t => gameOver state g o t (msgSender a)
  | ResetGame g t => resetGame state g t (msgSender a) (block a)
  end.

(** The state after the machine has applied a sequence of actions,
    oldest first. An action whose handler throws is rejected and leaves
    the state as it is. *)
Fixpoint run (l : list Submitted) (state : AppState) : AppState :=
  match l with
  | [] => state
  | a :: l' => run l' (next_state state (transitions a state))
  end.

End Transitions.

(** ** Input domains

    Every numeric input is declared [SolidityType.UINT] in the schemas, and
    the sequencer's block timestamp is a clock reading: both are
    non-negative. *)
Definition uint (n : Z) : bool := 0 <=? n.

Definition schema_ok (a : Submitted) : bool :=
  uint (block_timestamp (block a)) &&
  match action a with
  | CreateGame _ v t => uint v && uint t
  | UserMove _ _ t => uint t
  | GenerateObstacleAndScoreUpdate _ t => uint t
  | GameOver _ _ t => uint t
  | ResetGame _ t => uint t
  end.


(** The key a submitted action addresses: the derived id for createGame,
    the [gameId] input for the others. *)
Definition addressed (hashMessage : string -> string)
    (a : Submitted) (state : AppState) : string :=
  match action a with
  | CreateGame _ _ _ => newGameId hashMessage (msgSender a) (block a) state
  | UserMove g _ _ => g
  | GenerateObstacleAndScoreUpdate g _ => g
  | GameOver g _ _ => g
  | ResetGame g _ => g
  end.

(** A createGame whose signer check passes. *)
Definition creates (a : Submitted) : bool :=
  match action a with
  | CreateGame o _ _ =>
      String.eqb (toLowerCase (msgSender a)) (toLowerCase o)
  | _ => false
  end.

(** ** The last [:]-separated field of a string

    Used to read the store size back from the preimage of a game id. *)
Definition is_colon (c : ascii) : bool := Ascii.eqb c ":".

Fixpoint has_colon (s : string) : bool :=
  match s with
  | EmptyString => false
  | String c r => is_colon c || has_colon r
  end.

Fixpoint last_field (s : string) : string :=
  match s with
  | EmptyString => EmptyString
  | String c r =>
      if has_colon r then last_field r
      else if is_colon c then r else String c r
  end.

(** Every key of the store is the hash of a preimage whose last field
    is a number below the current size. *)
Definition ids_below_size (hashMessage : string -> string)
    (s : AppState) : Prop :=
  forall k, is_Some (games s !! k) ->
    exists (m t : string) (n : nat),
      k = hashMessage (m +:+ "::" +:+ t +:+ "::" +:+ pretty n)
      /\ (n < size (games s))%nat.

(** A lane index of the two-lane track. *)
Definition is_lane (n : Z) : Prop := n = 0 \/ n = 1.

Definition lanes_in_range (s : AppState) : Prop :=
  forall gid g, games s !! gid = Some g ->
    is_lane (carPosition g) /\ is_lane (lane (obstacle g)).


(** ** Concrete data for the examples *)

(** A collision-free stand-in for [hashMessage]. *)
Definition tag_hash (s : string) : string := "0x" +:+ s.

Definition block7 : Block := {| block_timestamp := 7 |}.
Definition block8 : Block := {| block_timestamp := 8 |}.

Definition alice_creates (v : Z) : Submitted :=
  {| action := CreateGame "0xAb" v 100; msgSender := "0xaB"; block := block7 |}.

(** The id of the first game Alice creates in [block7]. *)
Definition alice_id : string := "0x0xaB::7::0".

Definition alice_store : AppState := run tag_hash [alice_creates 2] initialState.


Definition alice_game : Game :=
  {| gameId := alice_id; owner := "0xAb"; carPosition := 1; speed := 2;
     score := -1; obstacle := {| lane := 1; z := -70 |};
     isGameOver := false; startedAt := 100; endedAt := None |}.



(** Alice, signing as "0xAB", plays her game. *)
Definition alice_does (a : Action) : Submitted :=
  {| action := a; msgSender := "0xAB"; block := block8 |}.

Definition alice_session : list Submitted :=
  [ alice_creates 2;
    alice_does (UserMove alice_id "moveLeft" 1);
    alice_does (GenerateObstacleAndScoreUpdate alice_id 4);
    alice_does (GameOver alice_id true 500);
    alice_does (ResetGame alice_id 9) ].

(** ** Further invariants of the store *)

(** Every game sits under its own [gameId]. *)
Definition gameId_matches_key (s : AppState) : Prop :=
  forall k g, games s !! k = Some g -> gameId g = k.

(** A game flagged over has an end time. *)
Definition over_has_end (s : AppState) : Prop :=
  forall k g, games s !! k = Some g ->
    isGameOver g = true -> is_Some (endedAt g).

Definition score_floor (s : AppState) : Prop :=
  forall k g, games s !! k = Some g -> 0 <= speed g /\ -1 <= score g.

(** The events that report a failed guard or an unknown action type. *)
Definition is_diagnostic (e : Event) : bool :=
  existsb (String.eqb (name e))
    [ "InvalidSigner"; "GameNotFound"; "UnauthorizedAction";
      "UnauthorizedReset"; "InvalidAction" ].

(** One generateObstacleAndScoreUpdate per timestamp of [ts], all on
    game [gid], signed by [m] in block [b]. *)
Definition score_updates (gid m : string) (b : Block) (ts : list Z)
    : list Submitted :=
  map (fun t => {| action := GenerateObstacleAndScoreUpdate gid t;
                   msgSender := m; block := b |}) ts.

Definition is_create (a : Action) : bool :=
  match a with
  | CreateGame _ _ _ => true
  | _ => false
  end.

(** ** The HTTP layer ([index.ts])

    Each POST route submits an action, waits for its confirmation and
    answers from the pair [{ errors, logs }] it gets back; what is
    modelled is that answer. [errors] and [logs] may be absent
    ([undefined]); an error is represented by its [message]. *)

Inductive Body : Type :=
  | BError (error : string)
  | BMessage (message : string)
  | BGameId (gameId_out : EventValue)
  | BGame (game : Game)
  | BInherited (key : string).

Record Response : Type := {
  status : Z;
  body : Body
}.

(** JavaScript truthiness of a log value. *)
Definition truthy (v : EventValue) : bool :=
  match v with
  | VString s => negb (String.eqb s "")
  | VNumber n => negb (Z.eqb n 0)
  end.

(** [app.post("/createGame", ...)], from the confirmation on. *)
Definition postCreateGame (errors : option (list string))
    (logs : option (list Event)) : Response :=
  match errors with
  | Some (e :: _) => {| status := 400; body := BError e |}
  | _ =>
    match logs with
    | None | Some [] =>
        {| status := 500; body := BError "No logs returned from action." |}
    | Some logs =>
        let gameCreatedLog :=
          find (fun log => String.eqb (name log) "GameCreated") logs in
        match gameCreatedLog with
        | Some log =>
            if truthy (value log)
            then {| status := 201; body := BGameId (value log) |}
            else {| status := 500;
                    body := BError "Game ID not found in logs." |}
        | None =>
            {| status := 500; body := BError "Game ID not found in logs." |}
        end
    end
  end.

(** [app.post("/moveCar", ...)], from the confirmation on. *)
Definition postMoveCar (actionType : string)
    (errors : option (list string)) (logs : option (list Event)) : Response :=
  match errors with
  | Some (e :: _) => {| status := 400; body := BError e |}
  | _ =>
    let successMessage :=
      if String.eqb actionType "moveLeft" then "Moved left successfully."
      else if String.eqb actionType "moveRight"
           then "Moved right successfully."
           else "Action performed successfully." in
    {| status := 200; body := BMessage successMessage |}
  end.

(** [app.post("/gameOver", ...)], from the confirmation on. *)
Definition postGameOver (gid : string) (over : bool)
    (errors : option (list string)) (logs : option (list Event)) : Response :=
  match errors with
  | Some (e :: _) => {| status := 400; body := BError e |}
  | _ =>
    {| status := 200;
       body := BMessage ("Game " +:+ gid +:+ " is now " +:+
                         (if over then "over" else "active") +:+ ".") |}
  end.

(** [app.get("/game/:gameId", ...)] on the machine's current state.
    [BInherited k] stands for what [res.json] makes of the member [k] of
    [Object.prototype]. *)
Definition getGame (state : AppState) (gid : string) : Response :=
  match games state !! gid with
  | None =>
    if inherited gid
    then {| status := 200; body := BInherited gid |}
    else {| status := 404; body := BMessage "Game not found." |}
  | Some game => {| status := 200; body := BGame game |}
  end.

(** [errors?.length] is falsy. *)
Definition no_errors (errors : option (list string)) : Prop :=
  errors = None \/ errors = Some [].

(** ** More concrete data *)

Definition alice_over : Game :=
  {| gameId := alice_id; owner := "0xAb"; carPosition := 1; speed := 2;
     score := -1; obstacle := {| lane := 1; z := -70 |};
     isGameOver := true; startedAt := 100; endedAt := Some 500 |}.

Definition alice_ends : list Submitted :=
  [ alice_creates 2; alice_does (GameOver alice_id true 500) ].

Definition stranger_does (a : Action) : Submitted :=
  {| action := a; msgSender := "0xBEEF"; block := block8 |}.

Definition alice_reset : Game :=
  {| gameId := alice_id; owner := "0xAb"; carPosition := 1; speed := 1;
     score := 0; obstacle := {| lane := 0; z := -70 |};
     isGameOver := false; startedAt := 100; endedAt := None |}.

Definition stranger_refused : Event :=
  {| name := "UnauthorizedAction";
     value := VString ("0xBEEF is not authorized to perform actions in game "
                       +:+ alice_id +:+ ".") |}.

(** * Properties *)

(** ** Strings *)

Lemma has_colon_app (a b : string) :
  has_colon (a +:+ b) = has_colon a || has_colon b.
Proof.
  induction a as [|c a IH]; simpl; [done|].
  by rewrite IH, orb_assoc.
Qed.

Lemma last_field_app (a b : string) :
  has_colon b = true -> last_field (a +:+ b) = last_field b.
Proof.
  intros Hb. induction a as [|c a IH]; simpl; [done|].
  by rewrite has_colon_app, Hb, orb_true_r.
Qed.

Lemma has_colon_digit (x : N) : is_colon (pretty_N_char x) = false.
Proof. unfold pretty_N_char. by repeat case_match. Qed.

Lemma has_colon_pretty_N_go (x : N) (s : string) :
  has_colon s = false -> has_colon (pretty_N_go x s) = false.
Proof.
  revert s. induction (N.lt_wf_0 x) as [x _ IH]; intros s Hs.
  destruct (decide (x = 0%N)) as [->|Hx].
  - by rewrite pretty_N_go_0.
  - rewrite pretty_N_go_step by lia. apply IH.
    + apply N.div_lt; lia.
    + simpl. by rewrite has_colon_digit, Hs.
Qed.

Lemma has_colon_pretty_nat (n : nat) : has_colon (pretty n) = false.
Proof.
  unfold pretty, pretty_nat, pretty, pretty_N.
  case_decide; [done|]. by apply has_colon_pretty_N_go.
Qed.

(** The store size can be read back from the preimage of a game id. *)
Lemma last_field_preimage (m t : string) (n : nat) :
  last_field (m +:+ "::" +:+ t +:+ "::" +:+ pretty n) = pretty n.
Proof.
  rewrite last_field_app by done.
  change ("::" +:+ t +:+ "::" +:+ pretty n)
    with (String ":" (String ":" (t +:+ String ":" (String ":" (pretty n))))).
  assert (Hn := has_colon_pretty_nat n).
  cbn [last_field]. rewrite !has_colon_app. cbn [has_colon is_colon Ascii.eqb].
  simpl. rewrite !orb_true_r.
  rewrite last_field_app by (simpl; done).
  simpl. by rewrite Hn.
Qed.

Lemma preimage_size_inj (m m' t t' : string) (n n' : nat) :
  m +:+ "::" +:+ t +:+ "::" +:+ pretty n
  = m' +:+ "::" +:+ t' +:+ "::" +:+ pretty n' -> n = n'.
Proof.
  intros H. apply (f_equal last_field) in H.
  rewrite !last_field_preimage in H. by apply (inj pretty).
Qed.

(** ** The guards *)

Lemma guard_fails (a b : string) : a <> b -> negb (String.eqb a b) = true.
Proof. intros H. by apply negb_true_iff, String.eqb_neq. Qed.

Lemma guard_passes (a b : string) : a = b -> negb (String.eqb a b) = false.
Proof. intros ->. by rewrite String.eqb_refl. Qed.

Lemma rem2_uint (t : Z) : 0 <= t -> Z.rem t 2 = t mod 2.
Proof. intros H. apply Z.rem_mod_nonneg; lia. Qed.

Lemma store_lookup (k : string) (g : Game) (s : AppState) :
  games (store k g s) !! k = Some g.
Proof. unfold store; simpl. apply lookup_insert_eq. Qed.

Lemma store_lookup_ne (k k' : string) (g : Game) (s : AppState) :
  k <> k' -> games (store k g s) !! k' = games s !! k'.
Proof. intros H. unfold store; simpl. by apply lookup_insert_ne. Qed.

Lemma store_same (k : string) (g : Game) (s : AppState) :
  games s !! k = Some g -> store k g s = s.
Proof. intros H. destruct s as [m]. unfold store; simpl in *. by rewrite insert_id. Qed.

(** ** Numbers *)

Lemma round_double_safe (x : Z) : safe x -> round_double x = x.
Proof.
  unfold safe, MAX_SAFE_INTEGER, round_double. intros H.
  assert (Hlt : (Z.abs x <? 2 ^ 53) = true) by (apply Z.ltb_lt; lia).
  by rewrite Hlt.
Qed.

Lemma js_add_safe (a b : Z) : safe (a + b) -> js_add a b = a + b.
Proof. apply round_double_safe. Qed.

Lemma round_double_nonneg (x : Z) : 0 <= x -> 0 <= round_double x.
Proof.
  intros Hx. unfold round_double.
  destruct (Z.abs x <? 2 ^ 53); [done|].
  rewrite (Z.abs_eq x) by done.
  destruct (decide (x = 0)) as [->|Hne]; [done|].
  rewrite Z.sgn_pos by lia.
  set (e := Z.log2 x - 52).
  assert (0 <= 2 ^ e) by (apply Z.pow_nonneg; lia).
  assert (0 <= x / 2 ^ e) by (apply Z_div_nonneg_nonneg; lia).
  destruct ((2 ^ (e - 1) <? x mod 2 ^ e)
            || (x mod 2 ^ e =? 2 ^ (e - 1)) && Z.odd (x / 2 ^ e)); nia.
Qed.

Lemma js_add_floor (a b : Z) : -1 <= a -> 0 <= b -> -1 <= js_add a b.
Proof.
  intros Ha Hb. unfold js_add.
  destruct (decide (a + b = -1)) as [->|Hne]; [done|].
  pose proof (round_double_nonneg (a + b)). lia.
Qed.

Section Properties.

Variable hashMessage : string -> string.

(** What holds of C1: a failed guard returns the state it was given and
    emits one diagnostic event: InvalidSigner when the createGame caller
    is not the declared owner; GameNotFound when userMove,
    generateObstacleAndScoreUpdate, gameOver or resetGame name a game
    that is absent and whose id is not a member of [Object.prototype],
    whoever calls (existence is tested first); UnauthorizedAction
    (UnauthorizedReset for resetGame) when the game exists and its owner
    is not the caller. Identities are compared after lower-casing
    both. *)
Lemma guard_failure_is_noop (state : AppState) (m : string) (b : Block) :
  (forall o v t,
      toLowerCase m <> toLowerCase o ->
      createGame hashMessage state o v t m b =
      (state, [ {| name := "InvalidSigner";
                   value := VString (m +:+
                     " is not authorized to create a game.") |} ]))
  /\ (forall gid,
      games state !! gid = None ->
      inherited gid = false ->
      let not_found :=
        Returns (state,
                 [ {| name := "GameNotFound";
                      value := VString ("Game ID " +:+ gid +:+
                                        " does not exist.") |} ]) in
      (forall k t, userMove state gid k t m b = not_found)
      /\ (forall t, generateObstacleAndScoreUpdate state gid t m b
                    = not_found)
      /\ (forall o t, gameOver state gid o t m = not_found)
      /\ (forall t, resetGame state gid t m b = not_found))
  /\ (forall gid g,
      games state !! gid = Some g ->
      toLowerCase (owner g) <> toLowerCase m ->
      (forall k t, userMove state gid k t m b =
         Returns
           (state, [ {| name := "UnauthorizedAction";
                        value := VString (m +:+
                          " is not authorized to perform actions in game "
                          +:+ gid +:+ ".") |} ]))
      /\ (forall t, generateObstacleAndScoreUpdate state gid t m b =
         Returns
           (state, [ {| name := "UnauthorizedAction";
                        value := VString (m +:+
                          " is not authorized to update the game "
                          +:+ gid +:+ ".") |} ]))
      /\ (forall o t, gameOver state gid o t m =
         Returns
           (state, [ {| name := "UnauthorizedAction";
                        value := VString (m +:+
                          " is not authorized to end game "
                          +:+ gid +:+ ".") |} ]))
      /\ (forall t, resetGame state gid t m b =
         Returns
           (state, [ {| name := "UnauthorizedReset";
                        value := VString (m +:+
                          " is not authorized to reset the game "
                          +:+ gid +:+ ".") |} ]))).
Proof.
  split; [|split].
  - intros o v t Hne. unfold createGame.
    by rewrite (guard_fails _ _ Hne).
  - intros gid Hnone Hown not_found.
    unfold userMove, generateObstacleAndScoreUpdate, gameOver, resetGame.
    rewrite Hnone, Hown. by repeat split.
  - intros gid g Hsome Hne.
    unfold userMove, generateObstacleAndScoreUpdate, gameOver, resetGame.
    rewrite Hsome, (guard_fails _ _ Hne). by repeat split.
Qed.

(** C1 fails on the code for the ids every object inherits: when the
    gameId input is absent from the store but names a member of
    [Object.prototype] (constructor, toString, __proto__, ...),
    [state.games[gameId]] is that member, [!game] is false, and userMove,
    generateObstacleAndScoreUpdate, gameOver and resetGame throw at
    [game.owner.toLowerCase()] instead of emitting GameNotFound. *)
Theorem absent_inherited_id_throws (state : AppState) (gid m : string)
    (b : Block) :
  games state !! gid = None ->
  inherited gid = true ->
  (forall k t, userMove state gid k t m b = Throws TypeError)
  /\ (forall t, generateObstacleAndScoreUpdate state gid t m b
                = Throws TypeError)
  /\ (forall o t, gameOver state gid o t m = Throws TypeError)
  /\ (forall t, resetGame state gid t m b = Throws TypeError).
Proof.
  intros Hnone Hin.
  unfold userMove, generateObstacleAndScoreUpdate, gameOver, resetGame.
  rewrite Hnone, Hin. by repeat split.
Qed.

(** C2. Once userMove has passed the existence and ownership guards:
    moveLeft at carPosition 1 stores 0 and emits CarMovedLeft(0);
    moveLeft at 0 changes nothing and emits nothing; moveRight at 0
    stores 1 and emits CarMovedRight(1); moveRight at 1 changes nothing
    and emits nothing; any other action type changes nothing and emits
    InvalidAction. Whatever the case, every game keeps all its fields
    but carPosition, and every game but the addressed one is kept
    whole. *)
Theorem userMove_table (state : AppState) (gid k : string) (t : Z)
    (m : string) (b : Block) (g : Game) :
  games state !! gid = Some g ->
  toLowerCase (owner g) = toLowerCase m ->
  (k = "moveLeft" -> carPosition g = 1 ->
     userMove state gid k t m b =
     Returns
       (store gid (set_carPosition g 0) state,
        [ {| name := "CarMovedLeft"; value := VNumber 0 |} ]))
  /\ (k = "moveLeft" -> carPosition g = 0 ->
     userMove state gid k t m b = Returns (state, []))
  /\ (k = "moveRight" -> carPosition g = 0 ->
     userMove state gid k t m b =
     Returns
       (store gid (set_carPosition g 1) state,
        [ {| name := "CarMovedRight"; value := VNumber 1 |} ]))
  /\ (k = "moveRight" -> carPosition g = 1 ->
     userMove state gid k t m b = Returns (state, []))
  /\ (k <> "moveLeft" -> k <> "moveRight" ->
     userMove state gid k t m b =
     Returns
       (state, [ {| name := "InvalidAction";
                    value := VString ("Game " +:+ gid +:+
                      ": Invalid action type " +:+ k +:+ ".") |} ]))
  /\ (forall gid' g0,
       games state !! gid' = Some g0 ->
       exists g',
         games (next_state state (userMove state gid k t m b)) !! gid'
           = Some g'
         /\ g' = set_carPosition g0 (carPosition g')
         /\ (gid' <> gid -> g' = g0)).
Proof.
  intros Hsome Hown. unfold userMove.
  rewrite Hsome, (guard_passes _ _ Hown).
  repeat split.
  - intros -> ->. done.
  - intros -> ->. done.
  - intros -> ->. done.
  - intros -> ->. done.
  - intros H1 H2.
    by rewrite (proj2 (String.eqb_neq _ _) H1), (proj2 (String.eqb_neq _ _) H2).
  - intros gid' g0 Hg0.
    assert (Hkeep : exists g', games state !! gid' = Some g'
              /\ g' = set_carPosition g0 (carPosition g')
              /\ (gid' <> gid -> g' = g0)).
    { exists g0. by destruct g0. }
    assert (Hset : forall v, exists g',
              games (store gid (set_carPosition g v) state) !! gid' = Some g'
              /\ g' = set_carPosition g0 (carPosition g')
              /\ (gid' <> gid -> g' = g0)).
    { intros v. destruct (decide (gid = gid')) as [<-|Hne].
      - rewrite store_lookup. eexists; split; [done|].
        split; [|done]. by simplify_eq.
      - rewrite store_lookup_ne by done. exact Hkeep. }
    repeat case_match; cbn [next_state fst]; auto.
Qed.


(** C5. Once gameOver has passed the existence and ownership guards,
    isGameOver becomes the input [over] and endedAt becomes the input
    timestamp, for [over = false] as for [over = true]; a GameOver
    event telling over or active is emitted; the other fields and the
    other games are kept. *)
Theorem gameOver_effect (state : AppState) (gid : string) (over : bool)
    (t : Z) (m : string) (g : Game) :
  games state !! gid = Some g ->
  toLowerCase (owner g) = toLowerCase m ->
  gameOver state gid over t m =
    Returns
      (store gid
         {| gameId := gameId g; owner := owner g;
            carPosition := carPosition g; speed := speed g;
            score := score g; obstacle := obstacle g;
            isGameOver := over; startedAt := startedAt g;
            endedAt := Some t |} state,
       [ {| name := "GameOver";
            value := VString ("Game " +:+ gid +:+ " is now " +:+
                              (if over then "over" else "active")
                              +:+ ".") |} ])
  /\ (forall gid', gid' <> gid ->
        games (next_state state (gameOver state gid over t m)) !! gid'
        = games state !! gid').
Proof.
  intros Hsome Hown. unfold gameOver.
  rewrite Hsome, (guard_passes _ _ Hown).
  split; [done|].
  intros gid' Hne. cbn [next_state fst]. by rewrite store_lookup_ne.
Qed.

(** C6. Once resetGame has passed the existence and ownership guards,
    the entry is rebuilt: gameId, owner and startedAt come from the
    current record; carPosition is 1, speed 1, score 0, isGameOver
    false, endedAt null, and the obstacle is {lane: block timestamp
    mod 2, z: -70}. The timestamp input plays no part. GameReset is
    emitted. *)
Theorem resetGame_effect (state : AppState) (gid : string) (t : Z)
    (m : string) (b : Block) (g : Game) :
  games state !! gid = Some g ->
  toLowerCase (owner g) = toLowerCase m ->
  0 <= block_timestamp b ->
  resetGame state gid t m b =
    Returns
      (store gid
         {| gameId := gameId g; owner := owner g;
            carPosition := 1; speed := 1; score := 0;
            obstacle := {| lane := block_timestamp b mod 2; z := -70 |};
            isGameOver := false; startedAt := startedAt g;
            endedAt := None |} state,
       [ {| name := "GameReset";
            value := VString ("Game " +:+ gid +:+ " has been reset.") |} ])
  /\ (forall t', resetGame state gid t' m b = resetGame state gid t m b).
Proof.
  intros Hsome Hown Hb. unfold resetGame.
  rewrite Hsome, (guard_passes _ _ Hown).
  unfold generateObstacles. by rewrite (rem2_uint _ Hb).
Qed.

(** C9. Two resetGame calls in a row on one game, both by its owner:
    after the second the game has the fields it had after the first
    (carPosition 1, speed 1, score 0, isGameOver false, endedAt null;
    gameId, owner and startedAt as before the first), but for the
    obstacle, which is the one of the second call's block timestamp;
    with equal block timestamps the second call changes nothing. *)
Theorem resetGame_twice (state : AppState) (gid : string) (t1 t2 : Z)
    (m : string) (b1 b2 : Block) (g : Game) :
  games state !! gid = Some g ->
  toLowerCase (owner g) = toLowerCase m ->
  let r1 := resetGame state gid t1 m b1 in
  let s1 := next_state state r1 in
  let r2 := resetGame s1 gid t2 m b2 in
  let after (b : Block) :=
    {| gameId := gameId g; owner := owner g;
       carPosition := 1; speed := 1; score := 0;
       obstacle := generateObstacles (block_timestamp b);
       isGameOver := false; startedAt := startedAt g;
       endedAt := None |} in
  let reset_event :=
    {| name := "GameReset";
       value := VString ("Game " +:+ gid +:+ " has been reset.") |} in
  r1 = Returns (store gid (after b1) state, [ reset_event ])
  /\ games s1 !! gid = Some (after b1)
  /\ r2 = Returns (store gid (after b2) s1, [ reset_event ])
  /\ games (next_state s1 r2) !! gid = Some (after b2)
  /\ (block_timestamp b1 = block_timestamp b2 -> next_state s1 r2 = s1).
Proof.
  intros Hsome Hown r1 s1 r2 after reset_event.
  assert (E1 : r1 = Returns (store gid (after b1) state, [ reset_event ])).
  { unfold r1, resetGame. by rewrite Hsome, (guard_passes _ _ Hown). }
  assert (H1 : games s1 !! gid = Some (after b1)).
  { unfold s1. rewrite E1. cbn [next_state fst]. apply store_lookup. }
  assert (E2 : r2 = Returns (store gid (after b2) s1, [ reset_event ])).
  { unfold r2, resetGame. rewrite H1.
    change (owner (after b1)) with (owner g).
    by rewrite (guard_passes _ _ Hown). }
  split; [exact E1|]. split; [exact H1|]. split; [exact E2|].
  rewrite E2. cbn [next_state fst]. split; [apply store_lookup|].
  intros Hb. apply store_same. rewrite H1. unfold after. by rewrite Hb.
Qed.

(** ** Reachable stores *)

Lemma run_invariant (P : Submitted -> Prop) (Inv : AppState -> Prop) :
  (forall a s, P a -> Inv s ->
     Inv (next_state s (transitions hashMessage a s))) ->
  forall l s, Forall P l -> Inv s -> Inv (run hashMessage l s).
Proof.
  intros Hstep l. induction l as [|a l IH]; intros s Hl Hs; [done|].
  inversion Hl; subst. cbn [run]. apply IH; [done|]. by apply Hstep.
Qed.

(** What one step does to the map: a createGame that passes its signer
    check stores at the derived id; anything else returns the state it
    got or stores at a key that is already there. *)
Lemma transitions_frame (a : Submitted) (s : AppState) :
  if creates a
  then exists g',
    next_state s (transitions hashMessage a s)
    = store (addressed hashMessage a s) g' s
  else
    next_state s (transitions hashMessage a s) = s
    \/ exists g',
         is_Some (games s !! addressed hashMessage a s)
         /\ next_state s (transitions hashMessage a s)
            = store (addressed hashMessage a s) g' s.
Proof.
  destruct a as [[o v t|gid k t|gid t|gid o t|gid t] m b];
    unfold creates, addressed, transitions; cbn [action msgSender block].
  - unfold createGame.
    destruct (String.eqb (toLowerCase m) (toLowerCase o));
      cbn [negb next_state fst]; eauto.
  - unfold userMove.
    destruct (games s !! gid) as [g|] eqn:Hg;
      [|left; by destruct (inherited gid)].
    repeat case_match; cbn [next_state fst]; eauto.
  - unfold generateObstacleAndScoreUpdate.
    destruct (games s !! gid) as [g|] eqn:Hg;
      [|left; by destruct (inherited gid)].
    case_match; cbn [next_state fst]; eauto.
  - unfold gameOver.
    destruct (games s !! gid) as [g|] eqn:Hg;
      [|left; by destruct (inherited gid)].
    case_match; cbn [next_state fst]; eauto.
  - unfold resetGame.
    destruct (games s !! gid) as [g|] eqn:Hg;
      [|left; by destruct (inherited gid)].
    case_match; cbn [next_state fst]; eauto.
Qed.

Lemma store_existing_size (k : string) (g : Game) (s : AppState) :
  is_Some (games s !! k) -> size (games (store k g s)) = size (games s).
Proof. intros [g0 H]. unfold store; cbn. by eapply map_size_insert_Some. Qed.

Lemma store_existing_dom (k : string) (g : Game) (s : AppState) :
  is_Some (games s !! k) -> dom (games (store k g s)) = dom (games s).
Proof.
  intros H. unfold store; cbn. apply dom_insert_lookup_L. done.
Qed.

Lemma ids_below_size_fresh (s : AppState) (m : string) (b : Block) :
  Inj (=) (=) hashMessage ->
  ids_below_size hashMessage s -> games s !! newGameId hashMessage m b s = None.
Proof.
  intros Hinj Hinv.
  destruct (games s !! newGameId hashMessage m b s) as [g|] eqn:Hg; [|done].
  destruct (Hinv _ (mk_is_Some _ _ Hg)) as (m' & t' & n & Heq & Hlt).
  unfold newGameId in Heq. apply Hinj, preimage_size_inj in Heq. lia.
Qed.

Lemma ids_below_size_step (a : Submitted) (s : AppState) :
  Inj (=) (=) hashMessage ->
  ids_below_size hashMessage s ->
  ids_below_size hashMessage (next_state s (transitions hashMessage a s)).
Proof.
  intros Hinj Hinv. pose proof (transitions_frame a s) as Hf.
  destruct (creates a) eqn:Hc.
  - destruct Hf as [g' ->].
    destruct a as [[o v t| | | |] m b]; try discriminate Hc.
    unfold addressed; cbn [action msgSender block].
    pose proof (ids_below_size_fresh s m b Hinj Hinv) as Hfresh.
    assert (Hsz : size (games (store (newGameId hashMessage m b s) g' s))
                  = S (size (games s))).
    { unfold store; cbn. by apply map_size_insert_None. }
    intros k Hk. rewrite Hsz.
    destruct (decide (newGameId hashMessage m b s = k)) as [<-|Hne].
    + exists m, (pretty (block_timestamp b)), (size (games s)).
      split; [done|lia].
    + rewrite store_lookup_ne in Hk by done.
      destruct (Hinv k Hk) as (m' & t' & n & -> & Hlt).
      exists m', t', n. split; [done|lia].
  - destruct Hf as [->|(g' & Hex & ->)]; [done|].
    intros k Hk. rewrite store_existing_size by done. apply Hinv.
    destruct (decide (addressed hashMessage a s = k)) as [<-|Hne]; [done|].
    by rewrite store_lookup_ne in Hk.
Qed.

Lemma ids_below_size_run (l : list Submitted) :
  Inj (=) (=) hashMessage ->
  ids_below_size hashMessage (run hashMessage l initialState).
Proof.
  intros Hinj.
  apply (run_invariant (fun _ => True)).
  - intros a s _. by apply ids_below_size_step.
  - by apply Forall_true.
  - intros k [g Hg]. cbn in Hg. by rewrite lookup_empty in Hg.
Qed.

(** C4. In a store the machine can reach, with a collision-free
    [hashMessage], a createGame whose caller is the declared owner
    (compared in lower case) inserts exactly one game, under the id
    hashMessage("<caller>::<block timestamp>::<number of games>"), which
    was not a key before; the game has carPosition 1, speed
    initialSpeed, score -1, obstacle {lane: block timestamp mod 2,
    z: -70}, isGameOver false, the given startedAt and endedAt null;
    GameCreated carries the id; every game already there is kept. *)
Theorem createGame_inserts_fresh_game (l : list Submitted)
    (o : string) (v t : Z) (m : string) (b : Block) :
  Inj (=) (=) hashMessage ->
  toLowerCase m = toLowerCase o ->
  0 <= block_timestamp b ->
  let state := run hashMessage l initialState in
  let gid :=
    hashMessage (m +:+ "::" +:+ pretty (block_timestamp b) +:+ "::" +:+
                 pretty (size (games state))) in
  let g :=
    {| gameId := gid; owner := o; carPosition := 1; speed := v;
       score := -1;
       obstacle := {| lane := block_timestamp b mod 2; z := -70 |};
       isGameOver := false; startedAt := t; endedAt := None |} in
  let state' := fst (createGame hashMessage state o v t m b) in
  games state !! gid = None
  /\ createGame hashMessage state o v t m b =
     (store gid g state, [ {| name := "GameCreated"; value := VString gid |} ])
  /\ games state' !! gid = Some g
  /\ size (games state') = S (size (games state))
  /\ dom (games state') = {[ gid ]} ∪ dom (games state)
  /\ (forall k g0, games state !! k = Some g0 -> games state' !! k = Some g0).
Proof.
  intros Hinj Hown Hb state gid g state'.
  assert (Hfresh : games state !! gid = None).
  { apply (ids_below_size_fresh state m b Hinj), ids_below_size_run, Hinj. }
  assert (Hrun : createGame hashMessage state o v t m b =
            (store gid g state,
             [ {| name := "GameCreated"; value := VString gid |} ])).
  { unfold createGame. rewrite (guard_passes _ _ Hown).
    unfold generateObstacles. by rewrite (rem2_uint _ Hb). }
  unfold state'. rewrite Hrun. cbn [next_state fst].
  split; [done|]. split; [done|]. split; [apply store_lookup|].
  split; [unfold store; cbn; by apply map_size_insert_None|].
  split; [unfold store; cbn; apply dom_insert_L|].
  intros k g0 Hk. rewrite store_lookup_ne; [done|]. congruence.
Qed.

Lemma lanes_in_range_step (a : Submitted) (s : AppState) :
  schema_ok a = true ->
  lanes_in_range s ->
  lanes_in_range (next_state s (transitions hashMessage a s)).
Proof.
  assert (Hrem : forall n, 0 <= n -> is_lane (Z.rem n 2)).
  { intros n Hn. rewrite (rem2_uint n Hn). unfold is_lane.
    pose proof (Z.mod_pos_bound n 2). lia. }
  unfold schema_ok, uint. intros Hok Hinv.
  destruct a as [[o v t|gid k t|gid t|gid o t|gid t] m b];
    cbn [action msgSender block] in Hok;
    repeat (apply andb_prop in Hok as [? Hok]);
    unfold transitions; cbn [action msgSender block];
    intros gid' g' Hlk.
  - unfold createGame in Hlk.
    case_match; cbn [next_state fst] in Hlk; [by eapply Hinv|].
    destruct (decide (newGameId hashMessage m b s = gid')) as [<-|Hne].
    + rewrite store_lookup in Hlk. simplify_eq. cbn.
      split; [by right|apply Hrem; lia].
    + rewrite store_lookup_ne in Hlk by done. by eapply Hinv.
  - unfold userMove in Hlk.
    destruct (games s !! gid) as [g|] eqn:Hg;
      [|destruct (inherited gid); by eapply Hinv].
    destruct (Hinv _ _ Hg) as [Hc Ho].
    repeat case_match; cbn [next_state fst] in Hlk; try (by eapply Hinv);
      (destruct (decide (gid = gid')) as [<-|Hne];
       [rewrite store_lookup in Hlk; simplify_eq; cbn; split;
          [unfold is_lane; lia|done]
       |rewrite store_lookup_ne in Hlk by done; by eapply Hinv]).
  - unfold generateObstacleAndScoreUpdate in Hlk.
    destruct (games s !! gid) as [g|] eqn:Hg;
      [|destruct (inherited gid); by eapply Hinv].
    destruct (Hinv _ _ Hg) as [Hc Ho].
    case_match; cbn [next_state fst] in Hlk; [by eapply Hinv|].
    destruct (decide (gid = gid')) as [<-|Hne].
    + rewrite store_lookup in Hlk. simplify_eq. cbn.
      split; [done|apply Hrem; lia].
    + rewrite store_lookup_ne in Hlk by done. by eapply Hinv.
  - unfold gameOver in Hlk.
    destruct (games s !! gid) as [g|] eqn:Hg;
      [|destruct (inherited gid); by eapply Hinv].
    destruct (Hinv _ _ Hg) as [Hc Ho].
    case_match; cbn [next_state fst] in Hlk; [by eapply Hinv|].
    destruct (decide (gid = gid')) as [<-|Hne].
    + rewrite store_lookup in Hlk. by simplify_eq.
    + rewrite store_lookup_ne in Hlk by done. by eapply Hinv.
  - unfold resetGame in Hlk.
    destruct (games s !! gid) as [g|] eqn:Hg;
      [|destruct (inherited gid); by eapply Hinv].
    case_match; cbn [next_state fst] in Hlk; [by eapply Hinv|].
    destruct (decide (gid = gid')) as [<-|Hne].
    + rewrite store_lookup in Hlk. simplify_eq. cbn.
      split; [by right|apply Hrem; lia].
    + rewrite store_lookup_ne in Hlk by done. by eapply Hinv.
Qed.

(** C7. In every store the machine reaches from the empty one through
    actions whose numeric inputs and block timestamps are non-negative,
    every game has carPosition in {0,1} and obstacle.lane in {0,1}. *)
Theorem lanes_stay_in_range (l : list Submitted) :
  Forall (fun a => schema_ok a = true) l ->
  forall gid g,
    games (run hashMessage l initialState) !! gid = Some g ->
    (carPosition g = 0 \/ carPosition g = 1)
    /\ (lane (obstacle g) = 0 \/ lane (obstacle g) = 1).
Proof.
  intros Hl.
  apply (run_invariant (fun a => schema_ok a = true) lanes_in_range);
    [apply lanes_in_range_step|done|].
  intros gid g Hg. cbn in Hg. by rewrite lookup_empty in Hg.
Qed.




(** C10. One step of the machine, from a store it can reach and with a
    collision-free [hashMessage]: no key is lost; every game but the
    addressed one (the derived id for createGame, the gameId input
    otherwise) is kept as it is; a createGame that passes its signer
    check adds exactly one key, the derived id; any other step leaves
    the key set as it is. *)
Theorem store_frame (l : list Submitted) (a : Submitted) :
  Inj (=) (=) hashMessage ->
  let s := run hashMessage l initialState in
  let s' := next_state s (transitions hashMessage a s) in
  dom (games s) ⊆ dom (games s')
  /\ (forall k, k <> addressed hashMessage a s ->
        games s' !! k = games s !! k)
  /\ (if creates a
      then (addressed hashMessage a s ∉ dom (games s))
           /\ dom (games s') = {[ addressed hashMessage a s ]} ∪ dom (games s)
           /\ size (games s') = S (size (games s))
      else dom (games s') = dom (games s)
           /\ size (games s') = size (games s)).
Proof.
  intros Hinj s s'. pose proof (transitions_frame a s) as Hf.
  assert (Hother : forall k, k <> addressed hashMessage a s ->
                     games s' !! k = games s !! k).
  { intros k Hk. unfold s'. destruct (creates a).
    - destruct Hf as [g' ->]. by rewrite store_lookup_ne.
    - destruct Hf as [->|(g' & _ & ->)]; [done|]. by rewrite store_lookup_ne. }
  assert (Hkeys : if creates a
      then (addressed hashMessage a s ∉ dom (games s))
           /\ dom (games s') = {[ addressed hashMessage a s ]} ∪ dom (games s)
           /\ size (games s') = S (size (games s))
      else dom (games s') = dom (games s)
           /\ size (games s') = size (games s)).
  { unfold s'. destruct (creates a) eqn:Hc.
    - destruct Hf as [g' ->].
      assert (Hfresh : games s !! addressed hashMessage a s = None).
      { destruct a as [[o v t| | | |] m b]; try discriminate Hc.
        unfold addressed; cbn [action msgSender block].
        apply (ids_below_size_fresh s m b Hinj), ids_below_size_run, Hinj. }
      split; [by apply not_elem_of_dom|].
      unfold store; cbn. split; [apply dom_insert_L|].
      by apply map_size_insert_None.
    - destruct Hf as [Heq|(g' & Hex & Heq)]; rewrite Heq; [done|].
      by rewrite store_existing_dom, store_existing_size. }
  split; [|done].
  destruct (creates a); destruct Hkeys as [H1 H2].
  - destruct H2 as [-> _]. apply union_subseteq_r.
  - by rewrite H1.
Qed.

End Properties.

(** ** The properties on a concrete session *)

(** Scenarios of the specification: a created game as it is read back, a
    move by a stranger, and gameOver by the owner. *)
Example scenario_create :
  createGame tag_hash initialState "0xAb" 2 100 "0xaB" block7
  = (store alice_id alice_game initialState,
     [ {| name := "GameCreated"; value := VString alice_id |} ]).
Proof. reflexivity. Qed.

Example scenario_stranger_moves :
  userMove alice_store alice_id "moveLeft" 1 "0xB" block8
  = Returns
      (alice_store,
       [ {| name := "UnauthorizedAction";
            value := VString
              ("0xB is not authorized to perform actions in game "
               +:+ alice_id +:+ ".") |} ]).
Proof. vm_compute. reflexivity. Qed.

Example scenario_gameOver :
  (isGameOver <$> games (next_state alice_store
                           (gameOver alice_store alice_id true 500 "0xAB"))
                  !! alice_id) = Some true
  /\ (endedAt <$> games (next_state alice_store
                          (gameOver alice_store alice_id true 500 "0xAB"))
                  !! alice_id) = Some (Some 500).
Proof. split; vm_compute; reflexivity. Qed.

Lemma tag_hash_inj : Inj (=) (=) tag_hash.
Proof. unfold tag_hash. apply _. Qed.

Lemma alice_store_lookup : games alice_store !! alice_id = Some alice_game.
Proof. vm_compute. reflexivity. Qed.


Lemma guard_failure_is_noop_example :
  createGame tag_hash alice_store "0xAb" 2 100 "0xBEEF" block8 =
     (alice_store,
      [ {| name := "InvalidSigner";
           value := VString "0xBEEF is not authorized to create a game." |} ])
  /\ userMove alice_store "0xnone" "moveLeft" 1 "0xBEEF" block8 =
     Returns
       (alice_store,
        [ {| name := "GameNotFound";
             value := VString "Game ID 0xnone does not exist." |} ])
  /\ resetGame alice_store alice_id 1 "0xBEEF" block8 =
     Returns
       (alice_store,
        [ {| name := "UnauthorizedReset";
             value := VString ("0xBEEF is not authorized to reset the game "
                               +:+ alice_id +:+ ".") |} ]).
Proof.
  assert (H1 : toLowerCase "0xBEEF" <> toLowerCase "0xAb") by discriminate.
  assert (H2 : games alice_store !! "0xnone" = None)
    by (vm_compute; reflexivity).
  assert (H3 : toLowerCase (owner alice_game) <> toLowerCase "0xBEEF")
    by discriminate.
  destruct (guard_failure_is_noop tag_hash alice_store "0xBEEF" block8)
    as (Hc & Hn & Hu).
  split; [exact (Hc "0xAb" 2 100 H1)|].
  split; [exact (proj1 (Hn "0xnone" H2 eq_refl) "moveLeft" 1)|].
  exact (proj2 (proj2 (proj2 (Hu alice_id alice_game alice_store_lookup
                                H3))) 1).
Qed.

Lemma absent_inherited_id_throws_witness :
  games alice_store !! "constructor" = None
  /\ inherited "constructor" = true
  /\ userMove alice_store "constructor" "moveLeft" 1 "0xAB" block8
     = Throws TypeError
  /\ resetGame alice_store "constructor" 1 "0xAB" block8 = Throws TypeError.
Proof.
  assert (H : games alice_store !! "constructor" = None)
    by (vm_compute; reflexivity).
  destruct (absent_inherited_id_throws alice_store "constructor" "0xAB"
              block8 H eq_refl) as (Hm & _ & _ & Hr).
  split; [exact H|]. split; [reflexivity|].
  split; [exact (Hm "moveLeft" 1)|exact (Hr 1)].
Defined.

Lemma userMove_table_witness :
  games alice_store !! alice_id = Some alice_game
  /\ toLowerCase (owner alice_game) = toLowerCase "0xAB"
  /\ userMove alice_store alice_id "moveLeft" 1 "0xAB" block8 =
     Returns
       (store alice_id (set_carPosition alice_game 0) alice_store,
        [ {| name := "CarMovedLeft"; value := VNumber 0 |} ]).
Proof.
  split; [apply alice_store_lookup|]. split; [reflexivity|].
  apply (userMove_table alice_store alice_id "moveLeft" 1 "0xAB" block8
           alice_game alice_store_lookup eq_refl); reflexivity.
Defined.



Lemma createGame_inserts_fresh_game_witness :
  Inj (=) (=) tag_hash
  /\ toLowerCase "0xaB" = toLowerCase "0xAb"
  /\ 0 <= block_timestamp block8
  /\ games alice_store !! newGameId tag_hash "0xaB" block8 alice_store = None.
Proof.
  split; [apply tag_hash_inj|]. split; [reflexivity|].
  assert (H8 : 0 <= block_timestamp block8) by (cbn; lia).
  split; [exact H8|].
  apply (createGame_inserts_fresh_game tag_hash [alice_creates 2]
           "0xAb" 3 200 "0xaB" block8 tag_hash_inj eq_refl H8).
Defined.

Lemma gameOver_effect_witness :
  games alice_store !! alice_id = Some alice_game
  /\ toLowerCase (owner alice_game) = toLowerCase "0xAB"
  /\ gameOver alice_store alice_id false 500 "0xAB" =
     Returns
       (store alice_id
          {| gameId := alice_id; owner := "0xAb"; carPosition := 1;
             speed := 2; score := -1; obstacle := {| lane := 1; z := -70 |};
             isGameOver := false; startedAt := 100; endedAt := Some 500 |}
          alice_store,
        [ {| name := "GameOver";
             value := VString ("Game " +:+ alice_id +:+
                               " is now active.") |} ]).
Proof.
  split; [apply alice_store_lookup|]. split; [reflexivity|].
  apply (gameOver_effect alice_store alice_id false 500 "0xAB" alice_game
           alice_store_lookup eq_refl).
Defined.

Lemma resetGame_effect_witness :
  games alice_store !! alice_id = Some alice_game
  /\ toLowerCase (owner alice_game) = toLowerCase "0xAB"
  /\ 0 <= block_timestamp block8
  /\ forall t', resetGame alice_store alice_id t' "0xAB" block8
               = resetGame alice_store alice_id 9 "0xAB" block8.
Proof.
  split; [apply alice_store_lookup|]. split; [reflexivity|].
  assert (H8 : 0 <= block_timestamp block8) by (cbn; lia).
  split; [exact H8|].
  apply (resetGame_effect alice_store alice_id 9 "0xAB" block8 alice_game
           alice_store_lookup eq_refl H8).
Defined.

Lemma resetGame_twice_witness :
  games alice_store !! alice_id = Some alice_game
  /\ toLowerCase (owner alice_game) = toLowerCase "0xAB"
  /\ (block_timestamp block8 = block_timestamp block8 ->
      next_state
        (next_state alice_store
           (resetGame alice_store alice_id 1 "0xAB" block8))
        (resetGame
           (next_state alice_store
              (resetGame alice_store alice_id 1 "0xAB" block8))
           alice_id 2 "0xAB" block8)
      = next_state alice_store
          (resetGame alice_store alice_id 1 "0xAB" block8)).
Proof.
  split; [apply alice_store_lookup|]. split; [reflexivity|].
  apply (resetGame_twice alice_store alice_id 1 2 "0xAB" block8 block8
           alice_game alice_store_lookup eq_refl).
Defined.

Lemma lanes_stay_in_range_witness :
  Forall (fun a => schema_ok a = true) alice_session
  /\ forall gid g,
       games (run tag_hash alice_session initialState) !! gid = Some g ->
       (carPosition g = 0 \/ carPosition g = 1)
       /\ (lane (obstacle g) = 0 \/ lane (obstacle g) = 1).
Proof.
  assert (H : Forall (fun a => schema_ok a = true) alice_session)
    by (repeat constructor).
  split; [exact H|]. exact (lanes_stay_in_range tag_hash alice_session H).
Defined.


Lemma store_frame_witness :
  Inj (=) (=) tag_hash
  /\ size (games (next_state alice_store
                   (transitions tag_hash (alice_creates 5) alice_store)))
     = S (size (games alice_store)).
Proof.
  split; [apply tag_hash_inj|].
  apply (store_frame tag_hash [alice_creates 2] (alice_creates 5) tag_hash_inj).
Defined.

Ltac step_in H :=
  unfold transitions, createGame, userMove, generateObstacleAndScoreUpdate,
    gameOver, resetGame in H;
  cbn [action msgSender block] in H.

Ltac split_store H :=
  match type of H with
  | games (store ?k0 _ _) !! ?k = _ =>
      destruct (decide (k0 = k)) as [<-|?];
      [rewrite store_lookup in H; simplify_eq
      |rewrite store_lookup_ne in H by done]
  | _ => idtac
  end.

Section MoreProperties.

Variable hashMessage : string -> string.

Lemma gameId_matches_key_step (a : Submitted) (s : AppState) :
  gameId_matches_key s ->
  gameId_matches_key (next_state s (transitions hashMessage a s)).
Proof.
  intros Hinv k g' Hlk.
  destruct a as [[o v t|gid q t|gid t|gid o t|gid t] m b]; step_in Hlk;
    repeat case_match; cbn [next_state fst] in Hlk; split_store Hlk;
    try (by eapply Hinv); cbn; first [done | by eapply Hinv].
Qed.

(** X1. In every store the machine reaches, whatever the actions and
    whatever [hashMessage], each game is stored under its own gameId. *)
Theorem gameId_is_key (l : list Submitted) (k : string) (g : Game) :
  games (run hashMessage l initialState) !! k = Some g -> gameId g = k.
Proof.
  revert k g.
  apply (run_invariant hashMessage (fun _ => True) gameId_matches_key).
  - intros a s _. apply gameId_matches_key_step.
  - by apply Forall_true.
  - intros k g Hg. cbn in Hg. by rewrite lookup_empty in Hg.
Qed.

(** X2. A step that finds a game under a key and is not a createGame
    writing to that very key leaves the game's gameId, owner and
    startedAt as they are: no transition reassigns a game or rewrites its
    start time. *)
Theorem identity_fields_kept (a : Submitted) (s : AppState) (k : string)
    (g g' : Game) :
  games s !! k = Some g ->
  games (next_state s (transitions hashMessage a s)) !! k = Some g' ->
  creates a = false \/ k <> addressed hashMessage a s ->
  gameId g' = gameId g /\ owner g' = owner g /\ startedAt g' = startedAt g.
Proof.
  intros Hg Hlk Hnc.
  destruct a as [[o v t|gid q t|gid t|gid o t|gid t] m b]; step_in Hlk;
    unfold creates, addressed in Hnc; cbn [action msgSender block] in Hnc.
  - destruct (String.eqb (toLowerCase m) (toLowerCase o)) eqn:Hs;
      cbn [negb next_state fst] in Hlk.
    + destruct Hnc as [?|Hne]; [done|].
      rewrite store_lookup_ne in Hlk by done. by simplify_eq.
    + by simplify_eq.
  - repeat case_match; cbn [next_state fst] in Hlk; split_store Hlk;
      by simplify_eq.
  - repeat case_match; cbn [next_state fst] in Hlk; split_store Hlk;
      by simplify_eq.
  - repeat case_match; cbn [next_state fst] in Hlk; split_store Hlk;
      by simplify_eq.
  - repeat case_match; cbn [next_state fst] in Hlk; split_store Hlk;
      by simplify_eq.
Qed.

(** X3. A step that returns without emitting any event changed
    nothing, and it is a userMove by the owner of an existing game asking
    for the side the car is already on (moveLeft with carPosition other
    than 1, moveRight with carPosition other than 0). *)
Theorem silent_step (a : Submitted) (s s' : AppState) :
  transitions hashMessage a s = Returns (s', []) ->
  s' = s
  /\ exists gid k t g,
       action a = UserMove gid k t
       /\ games s !! gid = Some g
       /\ toLowerCase (owner g) = toLowerCase (msgSender a)
       /\ ((k = "moveLeft" /\ carPosition g <> 1)
           \/ (k = "moveRight" /\ carPosition g <> 0)).
Proof.
  destruct a as [[o v t|gid q t|gid t|gid o t|gid t] m b];
    unfold transitions, createGame, userMove, generateObstacleAndScoreUpdate,
      gameOver, resetGame; cbn [action msgSender block];
    repeat case_match; intros Hnil; try discriminate Hnil;
    injection Hnil as <-.
  - split; [done|]. exists gid, q, t, g. (repeat split); try done.
    + match goal with H : negb _ = false |- _ =>
        apply negb_false_iff, String.eqb_eq in H end. done.
    + left. split; [by apply String.eqb_eq|by apply Z.eqb_neq].
  - split; [done|]. exists gid, q, t, g. (repeat split); try done.
    + match goal with H : negb _ = false |- _ =>
        apply negb_false_iff, String.eqb_eq in H end. done.
    + right. split; [by apply String.eqb_eq|by apply Z.eqb_neq].
Qed.

(** X4. When a step emits a diagnostic event (InvalidSigner,
    GameNotFound, UnauthorizedAction, UnauthorizedReset or
    InvalidAction), the store it returns is the store it received. *)
Theorem diagnostic_means_unchanged (a : Submitted) (s : AppState)
    (e : Event) :
  In e (logs_of (transitions hashMessage a s)) ->
  is_diagnostic e = true ->
  next_state s (transitions hashMessage a s) = s.
Proof.
  destruct a as [[o v t|gid q t|gid t|gid o t|gid t] m b];
    unfold transitions, createGame, userMove, generateObstacleAndScoreUpdate,
      gameOver, resetGame; cbn [action msgSender block];
    repeat case_match; cbn [next_state logs_of fst snd]; intros Hin Hd;
    try done;
    repeat (destruct Hin as [<-|Hin]; [discriminate Hd|]); destruct Hin.
Qed.

Lemma store_store (k : string) (g1 g2 : Game) (s : AppState) :
  store k g2 (store k g1 s) = store k g2 s.
Proof. unfold store; cbn. by rewrite insert_insert_eq. Qed.

Lemma userMove_moves_left (s : AppState) (gid : string) (t : Z)
    (m : string) (b : Block) (g : Game) :
  games s !! gid = Some g ->
  toLowerCase (owner g) = toLowerCase m ->
  carPosition g = 1 ->
  userMove s gid "moveLeft" t m b =
    Returns
      (store gid (set_carPosition g 0) s,
       [ {| name := "CarMovedLeft"; value := VNumber 0 |} ]).
Proof.
  intros Hg Hown Hc. unfold userMove.
  by rewrite Hg, (guard_passes _ _ Hown), Hc.
Qed.

Lemma userMove_moves_right (s : AppState) (gid : string) (t : Z)
    (m : string) (b : Block) (g : Game) :
  games s !! gid = Some g ->
  toLowerCase (owner g) = toLowerCase m ->
  carPosition g = 0 ->
  userMove s gid "moveRight" t m b =
    Returns
      (store gid (set_carPosition g 1) s,
       [ {| name := "CarMovedRight"; value := VNumber 1 |} ]).
Proof.
  intros Hg Hown Hc. unfold userMove.
  by rewrite Hg, (guard_passes _ _ Hown), Hc.
Qed.

Lemma set_carPosition_back (g : Game) (v w : Z) :
  carPosition g = w -> set_carPosition (set_carPosition g v) w = g.
Proof. intros <-. by destruct g. Qed.

(** X5. A move and the opposite move cancel: with the car at 1, the
    owner's moveLeft followed by moveRight gives back the very store they
    started from, after CarMovedLeft(0) and CarMovedRight(1); with the car
    at 0, so does moveRight followed by moveLeft. *)
Theorem opposite_moves_cancel (s : AppState) (gid : string) (t1 t2 : Z)
    (m : string) (b1 b2 : Block) (g : Game) :
  games s !! gid = Some g ->
  toLowerCase (owner g) = toLowerCase m ->
  (carPosition g = 1 ->
     let r1 := userMove s gid "moveLeft" t1 m b1 in
     let r2 := userMove (next_state s r1) gid "moveRight" t2 m b2 in
     logs_of r1 = [ {| name := "CarMovedLeft"; value := VNumber 0 |} ]
     /\ r2 = Returns
               (s, [ {| name := "CarMovedRight"; value := VNumber 1 |} ]))
  /\ (carPosition g = 0 ->
     let r1 := userMove s gid "moveRight" t1 m b1 in
     let r2 := userMove (next_state s r1) gid "moveLeft" t2 m b2 in
     logs_of r1 = [ {| name := "CarMovedRight"; value := VNumber 1 |} ]
     /\ r2 = Returns
               (s, [ {| name := "CarMovedLeft"; value := VNumber 0 |} ])).
Proof.
  intros Hg Hown. split; intros Hc r1 r2; subst r2 r1.
  - rewrite (userMove_moves_left s gid t1 m b1 g Hg Hown Hc).
    cbn [next_state logs_of fst snd].
    rewrite (userMove_moves_right _ gid t2 m b2 (set_carPosition g 0)
               (store_lookup _ _ _) Hown eq_refl).
    split; [done|].
    rewrite store_store, set_carPosition_back by done.
    by rewrite (store_same _ _ _ Hg).
  - rewrite (userMove_moves_right s gid t1 m b1 g Hg Hown Hc).
    cbn [next_state logs_of fst snd].
    rewrite (userMove_moves_left _ gid t2 m b2 (set_carPosition g 1)
               (store_lookup _ _ _) Hown eq_refl).
    split; [done|].
    rewrite store_store, set_carPosition_back by done.
    by rewrite (store_same _ _ _ Hg).
Qed.

Lemma userMove_stays_left (s : AppState) (gid : string) (t : Z)
    (m : string) (b : Block) (g : Game) :
  games s !! gid = Some g ->
  toLowerCase (owner g) = toLowerCase m ->
  carPosition g <> 1 ->
  userMove s gid "moveLeft" t m b = Returns (s, []).
Proof.
  intros Hg Hown Hc. unfold userMove.
  by rewrite Hg, (guard_passes _ _ Hown), (proj2 (Z.eqb_neq _ _) Hc).
Qed.

Lemma userMove_stays_right (s : AppState) (gid : string) (t : Z)
    (m : string) (b : Block) (g : Game) :
  games s !! gid = Some g ->
  toLowerCase (owner g) = toLowerCase m ->
  carPosition g <> 0 ->
  userMove s gid "moveRight" t m b = Returns (s, []).
Proof.
  intros Hg Hown Hc. unfold userMove.
  by rewrite Hg, (guard_passes _ _ Hown), (proj2 (Z.eqb_neq _ _) Hc).
Qed.

Lemma userMove_invalid (s : AppState) (gid k : string) (t : Z)
    (m : string) (b : Block) (g : Game) :
  games s !! gid = Some g ->
  toLowerCase (owner g) = toLowerCase m ->
  k <> "moveLeft" -> k <> "moveRight" ->
  next_state s (userMove s gid k t m b) = s.
Proof.
  intros Hg Hown Hl Hr. unfold userMove.
  by rewrite Hg, (guard_passes _ _ Hown), (proj2 (String.eqb_neq _ _) Hl),
    (proj2 (String.eqb_neq _ _) Hr).
Qed.

(** X6. Asking twice for the same move is asking once: when the guards
    pass, a second userMove with the same action type returns the store
    the first one returned, and for moveLeft and moveRight it emits
    nothing. *)
Theorem repeated_move_is_noop (s : AppState) (gid k : string) (t1 t2 : Z)
    (m : string) (b1 b2 : Block) (g : Game) :
  games s !! gid = Some g ->
  toLowerCase (owner g) = toLowerCase m ->
  let s1 := next_state s (userMove s gid k t1 m b1) in
  let r2 := userMove s1 gid k t2 m b2 in
  next_state s1 r2 = s1
  /\ (k = "moveLeft" \/ k = "moveRight" -> r2 = Returns (s1, [])).
Proof.
  intros Hg Hown s1 r2. subst r2 s1.
  destruct (decide (k = "moveLeft")) as [->|Hl];
    [|destruct (decide (k = "moveRight")) as [->|Hr]].
  - destruct (decide (carPosition g = 1)) as [Hc|Hc].
    + rewrite (userMove_moves_left s gid t1 m b1 g Hg Hown Hc).
      cbn [next_state fst].
      by rewrite (userMove_stays_left _ gid t2 m b2 (set_carPosition g 0)
                    (store_lookup _ _ _) Hown).
    + rewrite (userMove_stays_left s gid t1 m b1 g Hg Hown Hc).
      cbn [next_state fst].
      by rewrite (userMove_stays_left s gid t2 m b2 g Hg Hown Hc).
  - destruct (decide (carPosition g = 0)) as [Hc|Hc].
    + rewrite (userMove_moves_right s gid t1 m b1 g Hg Hown Hc).
      cbn [next_state fst].
      by rewrite (userMove_stays_right _ gid t2 m b2 (set_carPosition g 1)
                    (store_lookup _ _ _) Hown).
    + rewrite (userMove_stays_right s gid t1 m b1 g Hg Hown Hc).
      cbn [next_state fst].
      by rewrite (userMove_stays_right s gid t2 m b2 g Hg Hown Hc).
  - rewrite (userMove_invalid s gid k t1 m b1 g Hg Hown Hl Hr).
    rewrite (userMove_invalid s gid k t2 m b2 g Hg Hown Hl Hr).
    split; [done|]. by intros [?|?].
Qed.

Lemma score_update_step (s : AppState) (gid : string) (t : Z) (m : string)
    (b : Block) (g : Game) :
  games s !! gid = Some g ->
  toLowerCase (owner g) = toLowerCase m ->
  exists g1,
    games (next_state s (generateObstacleAndScoreUpdate s gid t m b)) !! gid
      = Some g1
    /\ score g1 = js_add (score g) (speed g) /\ speed g1 = speed g
    /\ owner g1 = owner g.
Proof.
  intros Hg Hown. unfold generateObstacleAndScoreUpdate.
  rewrite Hg, (guard_passes _ _ Hown). cbn [next_state fst].
  rewrite store_lookup. by eexists.
Qed.

(** X7. Scores add up while they stay safe integers: after n
    generateObstacleAndScoreUpdate calls by the owner on one game of
    non-negative speed, with any timestamps, the score is the old score
    plus n times the speed, provided the old score and that total are
    safe integers; the speed is what it was. *)
Theorem score_accumulates (s : AppState) (gid m : string) (b : Block)
    (ts : list Z) (g : Game) :
  games s !! gid = Some g ->
  toLowerCase (owner g) = toLowerCase m ->
  0 <= speed g ->
  safe (score g) ->
  safe (score g + Z.of_nat (length ts) * speed g) ->
  exists g',
    games (run hashMessage (score_updates gid m b ts) s) !! gid = Some g'
    /\ score g' = score g + Z.of_nat (length ts) * speed g
    /\ speed g' = speed g.
Proof.
  revert s g. induction ts as [|t ts IH]; intros s g Hg Hown Hsp Hs0 Hsn.
  - exists g. cbn. split; [done|]. split; [lia|done].
  - destruct (score_update_step s gid t m b g Hg Hown)
      as (g1 & Hg1 & Hsc & Hsp1 & Ho).
    cbn [length] in Hsn.
    assert (Hstep : safe (score g + speed g)).
    { unfold safe in *. nia. }
    rewrite (js_add_safe _ _ Hstep) in Hsc.
    destruct (IH _ g1 Hg1) as (g' & Hg' & Hsc' & Hsp');
      [congruence|lia|by rewrite Hsc|rewrite Hsc, Hsp1; unfold safe in *; nia|].
    exists g'. split; [exact Hg'|]. rewrite Hsc', Hsp', Hsc, Hsp1.
    split; [|done]. cbn [length]. lia.
Qed.

(** X8. The isGameOver flag stops nothing: on a game the owner has just
    marked over, generateObstacleAndScoreUpdate still replaces the
    obstacle and adds the speed to the score (the sum being a safe
    integer), and a moveLeft from carPosition 1 still moves the car. *)
Theorem over_game_still_plays (s : AppState) (gid : string) (t t' : Z)
    (m : string) (b : Block) (g : Game) :
  games s !! gid = Some g ->
  toLowerCase (owner g) = toLowerCase m ->
  safe (score g + speed g) ->
  let s1 := next_state s (gameOver s gid true t m) in
  generateObstacleAndScoreUpdate s1 gid t' m b =
    Returns
      (store gid
         {| gameId := gameId g; owner := owner g;
            carPosition := carPosition g; speed := speed g;
            score := score g + speed g;
            obstacle := generateObstacles t';
            isGameOver := true; startedAt := startedAt g;
            endedAt := Some t |} s1,
       [ {| name := "ObstacleGenerated";
            value := VString ("New obstacle generated in lane " +:+
                              pretty (Z.rem t' 2)) |};
         {| name := "ScoreUpdated";
            value := VString ("Game " +:+ gid +:+ ": Score is now " +:+
                              pretty (score g + speed g) +:+ ".") |} ])
  /\ (carPosition g = 1 ->
      userMove s1 gid "moveLeft" t' m b =
        Returns
          (store gid
             {| gameId := gameId g; owner := owner g;
                carPosition := 0; speed := speed g; score := score g;
                obstacle := obstacle g;
                isGameOver := true; startedAt := startedAt g;
                endedAt := Some t |} s1,
           [ {| name := "CarMovedLeft"; value := VNumber 0 |} ])).
Proof.
  intros Hg Hown Hsafe s1.
  assert (H1 : games s1 !! gid
               = Some (set_endedAt (set_isGameOver g true) (Some t))).
  { unfold s1, gameOver. rewrite Hg, (guard_passes _ _ Hown).
    cbn [next_state fst]. apply store_lookup. }
  split.
  - unfold generateObstacleAndScoreUpdate. rewrite H1.
    cbn [owner set_endedAt set_isGameOver].
    rewrite (guard_passes _ _ Hown).
    cbn [score speed set_obstacle set_score set_endedAt set_isGameOver].
    by rewrite (js_add_safe _ _ Hsafe).
  - intros Hc. unfold userMove. rewrite H1.
    cbn [owner carPosition set_endedAt set_isGameOver].
    by rewrite (guard_passes _ _ Hown), Hc.
Qed.

(** X9. Two createGame calls in a row by one caller in one block, from
    a store the machine can reach and with a collision-free
    [hashMessage], get two different ids (the store size in the preimage
    has moved on), and the store ends up with two more games. *)
Theorem consecutive_creates_distinct (l : list Submitted)
    (o o' : string) (v v' t t' : Z) (m : string) (b : Block) :
  Inj (=) (=) hashMessage ->
  toLowerCase m = toLowerCase o ->
  toLowerCase m = toLowerCase o' ->
  let s := run hashMessage l initialState in
  let s1 := fst (createGame hashMessage s o v t m b) in
  let s2 := fst (createGame hashMessage s1 o' v' t' m b) in
  newGameId hashMessage m b s <> newGameId hashMessage m b s1
  /\ is_Some (games s2 !! newGameId hashMessage m b s)
  /\ is_Some (games s2 !! newGameId hashMessage m b s1)
  /\ size (games s2) = S (S (size (games s))).
Proof.
  intros Hinj Ho Ho' s s1 s2.
  pose proof (ids_below_size_run hashMessage l Hinj) as Hs. fold s in Hs.
  pose proof (ids_below_size_step hashMessage
                {| action := CreateGame o v t; msgSender := m; block := b |}
                s Hinj Hs) as Hs1.
  change (ids_below_size hashMessage s1) in Hs1.
  pose proof (ids_below_size_fresh hashMessage s m b Hinj Hs) as Hf.
  pose proof (ids_below_size_fresh hashMessage s1 m b Hinj Hs1) as Hf1.
  assert (E1 : s1 = store (newGameId hashMessage m b s)
                 {| gameId := newGameId hashMessage m b s; owner := o;
                    carPosition := 1; speed := v; score := -1;
                    obstacle := generateObstacles (block_timestamp b);
                    isGameOver := false; startedAt := t;
                    endedAt := None |} s).
  { unfold s1, createGame. by rewrite (guard_passes _ _ Ho). }
  assert (E2 : s2 = store (newGameId hashMessage m b s1)
                 {| gameId := newGameId hashMessage m b s1; owner := o';
                    carPosition := 1; speed := v'; score := -1;
                    obstacle := generateObstacles (block_timestamp b);
                    isGameOver := false; startedAt := t';
                    endedAt := None |} s1).
  { unfold s2, createGame. by rewrite (guard_passes _ _ Ho'). }
  assert (Hne : newGameId hashMessage m b s <> newGameId hashMessage m b s1).
  { intros Heq. rewrite <- Heq in Hf1. rewrite E1 in Hf1 at 1.
    by rewrite store_lookup in Hf1. }
  split; [done|].
  split; [rewrite E2, store_lookup_ne by done; rewrite E1 at 1;
          by rewrite store_lookup|].
  split; [rewrite E2; by rewrite store_lookup|].
  rewrite E2. unfold store at 1; cbn [games].
  rewrite map_size_insert_None by done.
  rewrite E1. unfold store; cbn [games].
  by rewrite map_size_insert_None.
Qed.

Lemma size_counts_creates_from (l : list Submitted) (s : AppState) :
  Inj (=) (=) hashMessage ->
  ids_below_size hashMessage s ->
  size (games (run hashMessage l s))
  = (size (games s) + length (List.filter creates l))%nat.
Proof.
  intros Hinj. revert s. induction l as [|a l IH]; intros s Hs.
  - cbn. lia.
  - cbn [run List.filter].
    rewrite (IH _ (ids_below_size_step hashMessage a s Hinj Hs)).
    pose proof (transitions_frame hashMessage a s) as Hf.
    destruct (creates a) eqn:Hc.
    + destruct Hf as [g' ->].
      destruct a as [[o v t| | | |] m b]; try discriminate Hc.
      unfold addressed, store; cbn [action msgSender block games length].
      rewrite map_size_insert_None
        by (by apply ids_below_size_fresh).
      lia.
    + destruct Hf as [->|(g' & Hex & ->)]; [done|].
      by rewrite store_existing_size.
Qed.

(** X10. With a collision-free [hashMessage], the number of games in the
    store the machine has reached is the number of createGame calls that
    passed the signer check: nothing else adds a game and nothing ever
    removes or overwrites one. *)
Theorem store_size_counts_creates (l : list Submitted) :
  Inj (=) (=) hashMessage ->
  size (games (run hashMessage l initialState))
  = length (List.filter creates l).
Proof.
  intros Hinj. rewrite size_counts_creates_from; [done|done|].
  intros k [g Hg]. cbn in Hg. by rewrite lookup_empty in Hg.
Qed.

Lemma score_floor_step (a : Submitted) (s : AppState) :
  schema_ok a = true ->
  score_floor s -> score_floor (next_state s (transitions hashMessage a s)).
Proof.
  unfold schema_ok, uint. intros Hok Hinv.
  destruct a as [[o v t|gid q t|gid t|gid o t|gid t] m b];
    cbn [action msgSender block] in Hok;
    repeat (apply andb_prop in Hok as [? Hok]);
    intros k g' Hlk; step_in Hlk.
  - repeat case_match; cbn [next_state fst] in Hlk; split_store Hlk;
      try (by eapply Hinv). cbn. lia.
  - destruct (games s !! gid) as [g|] eqn:Hg;
      [|destruct (inherited gid); by eapply Hinv].
    pose proof (Hinv _ _ Hg).
    repeat case_match; cbn [next_state fst] in Hlk; split_store Hlk;
      try (by eapply Hinv); done.
  - destruct (games s !! gid) as [g|] eqn:Hg;
      [|destruct (inherited gid); by eapply Hinv].
    destruct (Hinv _ _ Hg) as [Hsp Hsc].
    repeat case_match; cbn [next_state fst] in Hlk; split_store Hlk;
      try (by eapply Hinv). cbn. split; [done|]. by apply js_add_floor.
  - destruct (games s !! gid) as [g|] eqn:Hg;
      [|destruct (inherited gid); by eapply Hinv].
    pose proof (Hinv _ _ Hg).
    repeat case_match; cbn [next_state fst] in Hlk; split_store Hlk;
      try (by eapply Hinv); done.
  - destruct (games s !! gid) as [g|] eqn:Hg;
      [|destruct (inherited gid); by eapply Hinv].
    repeat case_match; cbn [next_state fst] in Hlk; split_store Hlk;
      try (by eapply Hinv). cbn. lia.
Qed.

(** X11. Through actions whose numeric inputs are non-negative, as the
    UINT schemas require, no game ever has a negative speed or a score
    below -1, the value createGame starts from. *)
Theorem score_never_below_start (l : list Submitted) :
  Forall (fun a => schema_ok a = true) l ->
  forall k g,
    games (run hashMessage l initialState) !! k = Some g ->
    0 <= speed g /\ -1 <= score g.
Proof.
  intros Hl.
  apply (run_invariant hashMessage (fun a => schema_ok a = true) score_floor);
    [apply score_floor_step|done|].
  intros k g Hg. cbn in Hg. by rewrite lookup_empty in Hg.
Qed.

Lemma over_has_end_step (a : Submitted) (s : AppState) :
  over_has_end s -> over_has_end (next_state s (transitions hashMessage a s)).
Proof.
  intros Hinv k g' Hlk.
  destruct a as [[o v t|gid q t|gid t|gid o t|gid t] m b]; step_in Hlk;
    repeat case_match; cbn [next_state fst] in Hlk; split_store Hlk;
    try (by eapply Hinv); cbn; try done;
    match goal with H : games s !! _ = Some ?g |- _ =>
      exact (Hinv _ _ H) end.
Qed.

(** X12. In every store the machine reaches, a game whose isGameOver
    flag is set has an endedAt timestamp: the flag is only ever raised by
    gameOver, which writes endedAt in the same step, and resetGame lowers
    the flag when it clears endedAt. *)
Theorem over_game_has_end (l : list Submitted) (k : string) (g : Game) :
  games (run hashMessage l initialState) !! k = Some g ->
  isGameOver g = true -> is_Some (endedAt g).
Proof.
  revert k g.
  apply (run_invariant hashMessage (fun _ => True) over_has_end).
  - intros a s _. apply over_has_end_step.
  - by apply Forall_true.
  - intros k g Hg. cbn in Hg. by rewrite lookup_empty in Hg.
Qed.

(** X13. On non-negative timestamps the obstacle lane follows the parity
    of the timestamp: the next timestamp gives the other lane, and the
    distance is -70 every time. *)
Theorem generateObstacles_alternates (t : Z) :
  0 <= t ->
  lane (generateObstacles (t + 1)) = 1 - lane (generateObstacles t)
  /\ z (generateObstacles t) = -70.
Proof.
  intros Ht. unfold generateObstacles; cbn [lane z].
  rewrite !rem2_uint by lia. split; [|done].
  pose proof (Z.mod_pos_bound t 2). pose proof (Z.mod_pos_bound (t + 1) 2).
  pose proof (Z.div_mod t 2). pose proof (Z.div_mod (t + 1) 2). lia.
Qed.

(** X14. The remainder keeps the sign of the timestamp: a negative odd
    timestamp, which nothing in generateObstacles excludes, gives lane
    -1, outside the two lanes. *)
Theorem generateObstacles_negative_odd (t : Z) :
  t < 0 -> Z.odd t = true -> lane (generateObstacles t) = -1.
Proof.
  intros Ht Hodd. unfold generateObstacles; cbn [lane].
  assert (Hb : -2 < Z.rem t 2 <= 0) by (apply (Z.rem_bound_pos_neg t 2); lia).
  assert (Hq : t = 2 * Z.quot t 2 + Z.rem t 2) by (apply Z.quot_rem; lia).
  apply Z.odd_spec in Hodd as [q Hq'].
  destruct (decide (Z.rem t 2 = 0)) as [H0|H0]; [|lia].
  rewrite H0 in Hq. lia.
Qed.

(** X15. For every transition but createGame the caller matters only up
    to letter case: for two callers equal after lower-casing, either both
    calls throw or both return, with the same resulting store and events
    of the same names. *)
Theorem caller_case_insensitive (a : Action) (m1 m2 : string) (b : Block)
    (s : AppState) :
  is_create a = false ->
  toLowerCase m1 = toLowerCase m2 ->
  let r1 := transitions hashMessage
              {| action := a; msgSender := m1; block := b |} s in
  let r2 := transitions hashMessage
              {| action := a; msgSender := m2; block := b |} s in
  next_state s r1 = next_state s r2
  /\ map name (logs_of r1) = map name (logs_of r2)
  /\ ((exists e, r1 = Throws e) <-> (exists e, r2 = Throws e)).
Proof.
  intros Hnc Hm r1 r2. subst r1 r2.
  destruct a as [o v t|gid q t|gid t|gid o t|gid t]; [discriminate Hnc|..];
    unfold transitions, userMove, generateObstacleAndScoreUpdate, gameOver,
      resetGame; cbn [action msgSender block]; rewrite Hm;
    repeat case_match; (split; [done|]); (split; [done|]);
    split; intros [e He]; try discriminate He; by eauto.
Qed.

(** ** The HTTP layer on top of the transitions *)

(** X16. Create, then read: when createGame passes its signer check and
    the rollup hands back its events as logs without errors, POST
    /createGame answers 201 with the new id, and GET /game/<that id> on
    the resulting state answers 200 with the game just created. (The id
    must not be the empty string, which [hashMessage] never returns.) *)
Theorem create_then_read (s : AppState) (o : string) (v t : Z)
    (m : string) (b : Block) (errors : option (list string)) :
  toLowerCase m = toLowerCase o ->
  (forall x, hashMessage x <> "") ->
  no_errors errors ->
  let r := createGame hashMessage s o v t m b in
  let gid := newGameId hashMessage m b s in
  postCreateGame errors (Some (snd r))
    = {| status := 201; body := BGameId (VString gid) |}
  /\ getGame (fst r) gid
    = {| status := 200;
         body := BGame
           {| gameId := gid; owner := o; carPosition := 1; speed := v;
              score := -1;
              obstacle := generateObstacles (block_timestamp b);
              isGameOver := false; startedAt := t; endedAt := None |} |}.
Proof.
  intros Ho Hne Herr r gid. subst r. unfold createGame.
  rewrite (guard_passes _ _ Ho). cbn [fst snd]. fold gid. split.
  - unfold postCreateGame. cbn [find name value String.eqb Ascii.eqb Bool.eqb].
    cbn [truthy].
    assert (Hg : String.eqb gid "" = false)
      by (apply String.eqb_neq, Hne).
    rewrite Hg. cbn [negb]. by destruct Herr as [-> | ->].
  - unfold getGame. by rewrite store_lookup.
Qed.

(** X17. A createGame refused for its signer comes back from POST
    /createGame as a 500 "Game ID not found in logs.": the only log is
    InvalidSigner, and the store is the one before the call. *)
Theorem refused_create_answers_500 (s : AppState) (o : string) (v t : Z)
    (m : string) (b : Block) (errors : option (list string)) :
  toLowerCase m <> toLowerCase o ->
  no_errors errors ->
  let r := createGame hashMessage s o v t m b in
  postCreateGame errors (Some (snd r))
    = {| status := 500; body := BError "Game ID not found in logs." |}
  /\ fst r = s.
Proof.
  intros Ho Herr r. subst r. unfold createGame.
  rewrite (guard_fails _ _ Ho). cbn [fst snd]. split; [|done].
  by destruct Herr as [-> | ->].
Qed.

(** X18. POST /createGame answers 201 only without errors and only with
    the value of a log named GameCreated, which is then neither the empty
    string nor zero. *)
Theorem created_reply_carries_logged_id (errors : option (list string))
    (logs : option (list Event)) :
  status (postCreateGame errors logs) = 201 ->
  no_errors errors
  /\ exists ls e,
       logs = Some ls /\ In e ls /\ name e = "GameCreated"
       /\ truthy (value e) = true
       /\ body (postCreateGame errors logs) = BGameId (value e).
Proof.
  unfold postCreateGame, no_errors.
  destruct errors as [[|err errs]|]; cbn [status]; try discriminate;
    (destruct logs as [[|l0 ls]|]; cbn [status]; try discriminate;
     destruct (find _ (l0 :: ls)) as [e|] eqn:Hfind; cbn [status];
       try discriminate;
     destruct (truthy (value e)) eqn:Htr; cbn [status body];
       try discriminate;
     intros _; (split; [by auto|]);
     apply find_some in Hfind as [Hin Hname];
     exists (l0 :: ls), e; repeat split; try done;
     by apply String.eqb_eq).
Qed.

(** X19. POST /moveCar reports success without looking at the logs: a
    move refused because the caller is not the owner leaves the store as
    it was and is still answered 200, with "Moved left successfully." for
    a moveLeft. *)
Theorem refused_move_answers_200 (s : AppState) (gid k : string) (t : Z)
    (m : string) (b : Block) (g : Game) (errors : option (list string)) :
  games s !! gid = Some g ->
  toLowerCase (owner g) <> toLowerCase m ->
  no_errors errors ->
  let r := userMove s gid k t m b in
  next_state s r = s
  /\ status (postMoveCar k errors (Some (logs_of r))) = 200
  /\ (k = "moveLeft" ->
      postMoveCar k errors (Some (logs_of r))
      = {| status := 200; body := BMessage "Moved left successfully." |}).
Proof.
  intros Hg Ho Herr r. subst r. unfold userMove.
  rewrite Hg, (guard_fails _ _ Ho). cbn [next_state logs_of fst snd].
  split; [done|].
  unfold postMoveCar. destruct Herr as [-> | ->]; (split; [done|]);
    by intros ->.
Qed.

(** X20. GET /game/:gameId on a state the machine has reached answers
    200 with the stored game, whose gameId is the id asked for, when the
    id is a key of the store; 200 without a game when the id is no key
    but names a member of [Object.prototype]; and 404 "Game not found."
    otherwise. *)
Theorem getGame_returns_the_game_asked_for (l : list Submitted)
    (gid : string) :
  let s := run hashMessage l initialState in
  (forall g, games s !! gid = Some g ->
     getGame s gid = {| status := 200; body := BGame g |}
     /\ gameId g = gid)
  /\ (games s !! gid = None -> inherited gid = true ->
      getGame s gid = {| status := 200; body := BInherited gid |})
  /\ (games s !! gid = None -> inherited gid = false ->
      getGame s gid
      = {| status := 404; body := BMessage "Game not found." |}).
Proof.
  intros s. unfold getGame. split; [|split].
  - intros g Hg. rewrite Hg. split; [done|].
    revert gid g Hg.
    apply (run_invariant hashMessage (fun _ => True) gameId_matches_key).
    + intros a s0 _. apply gameId_matches_key_step.
    + by apply Forall_true.
    + intros k g Hg. cbn in Hg. by rewrite lookup_empty in Hg.
  - by intros -> ->.
  - by intros -> ->.
Qed.

(** ** Game ids *)

Lemma list_ascii_of_string_app (a b : string) :
  list_ascii_of_string (a +:+ b)
  = (list_ascii_of_string a ++ list_ascii_of_string b)%list.
Proof.
  induction a as [|c a IH]; [done|].
  simpl. f_equal. exact IH.
Qed.

Lemma append_inv_tail (a b r : string) : a +:+ r = b +:+ r -> a = b.
Proof.
  intros H. apply (f_equal list_ascii_of_string) in H.
  rewrite !list_ascii_of_string_app in H. apply app_inv_tail in H.
  rewrite <- (string_of_list_ascii_of_string a),
    <- (string_of_list_ascii_of_string b). by rewrite H.
Qed.

Lemma string_app_assoc (a b c : string) :
  (a +:+ b) +:+ c = a +:+ b +:+ c.
Proof.
  induction a as [|x a IH]; [done|].
  change (String x ((a +:+ b) +:+ c) = String x (a +:+ b +:+ c)).
  by rewrite IH.
Qed.

Lemma preimage_assoc (m pt pn : string) :
  m +:+ "::" +:+ pt +:+ "::" +:+ pn = (m +:+ "::" +:+ pt) +:+ "::" +:+ pn.
Proof. by rewrite !string_app_assoc. Qed.

Lemma last_field_sep (x d : string) :
  has_colon d = false -> last_field (x +:+ "::" +:+ d) = d.
Proof.
  intros Hd. rewrite last_field_app by done.
  change (last_field (String ":" (String ":" d)) = d).
  cbn [last_field has_colon]. by rewrite !Hd.
Qed.

Lemma has_colon_pretty_Z (t : Z) : has_colon (pretty t) = false.
Proof.
  assert (Hpos : forall p : positive, has_colon (pretty p) = false).
  { intros p. unfold pretty, pretty_positive, pretty, pretty_N.
    case_decide; [done|]. by apply has_colon_pretty_N_go. }
  destruct t as [|p|p]; [done|apply Hpos|].
  unfold pretty, pretty_Z. rewrite has_colon_app.
  change (has_colon "-") with false. apply Hpos.
Qed.

Lemma preimage_inj (m1 m2 : string) (t1 t2 : Z) (n1 n2 : nat) :
  m1 +:+ "::" +:+ pretty t1 +:+ "::" +:+ pretty n1
  = m2 +:+ "::" +:+ pretty t2 +:+ "::" +:+ pretty n2 ->
  m1 = m2 /\ t1 = t2 /\ n1 = n2.
Proof.
  intros H. pose proof (preimage_size_inj _ _ _ _ _ _ H) as <-.
  rewrite !preimage_assoc in H. apply append_inv_tail in H.
  pose proof (f_equal last_field H) as Ht.
  rewrite !last_field_sep in Ht by apply has_colon_pretty_Z.
  apply (inj pretty) in Ht as <-.
  by apply append_inv_tail in H.
Qed.

(** X21. With a collision-free [hashMessage], a game id determines the
    caller string (letter case included), the block timestamp and the
    store size it was derived from: createGame calls that differ in any
    of the three get different ids. *)
Theorem newGameId_injective (m1 m2 : string) (b1 b2 : Block)
    (s1 s2 : AppState) :
  Inj (=) (=) hashMessage ->
  newGameId hashMessage m1 b1 s1 = newGameId hashMessage m2 b2 s2 ->
  m1 = m2
  /\ block_timestamp b1 = block_timestamp b2
  /\ size (games s1) = size (games s2).
Proof.
  intros Hinj H. unfold newGameId in H. by apply Hinj, preimage_inj in H.
Qed.

(** X22. When gameOver passes its guards, the message POST /gameOver
    sends back is word for word the text of the GameOver event the
    handler emitted. *)
Theorem gameOver_reply_matches_event (s : AppState) (gid : string)
    (over : bool) (t : Z) (m : string) (g : Game)
    (errors : option (list string)) :
  games s !! gid = Some g ->
  toLowerCase (owner g) = toLowerCase m ->
  no_errors errors ->
  let r := gameOver s gid over t m in
  exists msg,
    r = Returns
          (next_state s r,
           [ {| name := "GameOver"; value := VString msg |} ])
    /\ postGameOver gid over errors (Some (logs_of r))
       = {| status := 200; body := BMessage msg |}.
Proof.
  intros Hg Hown Herr r. subst r. unfold gameOver.
  rewrite Hg, (guard_passes _ _ Hown). cbn [next_state logs_of fst snd].
  eexists. split; [reflexivity|].
  unfold postGameOver. by destruct Herr as [-> | ->].
Qed.

End MoreProperties.
(** ** The further properties on the concrete session *)

Lemma tag_hash_nonempty (x : string) : tag_hash x <> "".
Proof. unfold tag_hash. discriminate. Qed.

Lemma alice_owns : toLowerCase (owner alice_game) = toLowerCase "0xAB".
Proof. reflexivity. Qed.

Lemma alice_ends_lookup :
  games (run tag_hash alice_ends initialState) !! alice_id = Some alice_over.
Proof. vm_compute. reflexivity. Qed.

Lemma alice_reset_lookup :
  games (next_state alice_store
           (transitions tag_hash (alice_does (ResetGame alice_id 9))
              alice_store)) !! alice_id = Some alice_reset.
Proof. vm_compute. reflexivity. Qed.

Lemma gameId_is_key_witness :
  games (run tag_hash [alice_creates 2] initialState) !! alice_id
    = Some alice_game
  /\ gameId alice_game = alice_id.
Proof.
  split; [exact alice_store_lookup|].
  exact (gameId_is_key tag_hash [alice_creates 2] alice_id alice_game
           alice_store_lookup).
Defined.

Lemma identity_fields_kept_witness :
  games alice_store !! alice_id = Some alice_game
  /\ games (next_state alice_store
             (transitions tag_hash (alice_does (ResetGame alice_id 9))
                alice_store)) !! alice_id = Some alice_reset
  /\ (creates (alice_does (ResetGame alice_id 9)) = false
      \/ alice_id <> addressed tag_hash (alice_does (ResetGame alice_id 9))
                       alice_store)
  /\ (gameId alice_reset = gameId alice_game
      /\ owner alice_reset = owner alice_game
      /\ startedAt alice_reset = startedAt alice_game).
Proof.
  split; [exact alice_store_lookup|]. split; [exact alice_reset_lookup|].
  split; [left; reflexivity|].
  exact (identity_fields_kept tag_hash (alice_does (ResetGame alice_id 9))
           alice_store alice_id alice_game alice_reset alice_store_lookup
           alice_reset_lookup (or_introl eq_refl)).
Defined.

Lemma silent_step_witness :
  transitions tag_hash (alice_does (UserMove alice_id "moveRight" 1))
    alice_store = Returns (alice_store, [])
  /\ alice_store = alice_store.
Proof.
  assert (H : transitions tag_hash
                (alice_does (UserMove alice_id "moveRight" 1)) alice_store
              = Returns (alice_store, [])) by (vm_compute; reflexivity).
  split; [exact H|].
  exact (proj1 (silent_step tag_hash _ alice_store alice_store H)).
Defined.

Lemma diagnostic_means_unchanged_witness :
  In stranger_refused
     (logs_of (transitions tag_hash
                 (stranger_does (UserMove alice_id "moveLeft" 1))
                 alice_store))
  /\ is_diagnostic stranger_refused = true
  /\ next_state alice_store
       (transitions tag_hash
          (stranger_does (UserMove alice_id "moveLeft" 1)) alice_store)
     = alice_store.
Proof.
  assert (H : In stranger_refused
                (logs_of (transitions tag_hash
                            (stranger_does (UserMove alice_id "moveLeft" 1))
                            alice_store)))
    by (vm_compute; left; reflexivity).
  split; [exact H|]. split; [reflexivity|].
  exact (diagnostic_means_unchanged tag_hash _ alice_store stranger_refused
           H eq_refl).
Defined.

Lemma opposite_moves_cancel_witness :
  games alice_store !! alice_id = Some alice_game
  /\ toLowerCase (owner alice_game) = toLowerCase "0xAB"
  /\ carPosition alice_game = 1
  /\ userMove (next_state alice_store
                (userMove alice_store alice_id "moveLeft" 1 "0xAB" block8))
       alice_id "moveRight" 2 "0xAB" block8
     = Returns
         (alice_store,
          [ {| name := "CarMovedRight"; value := VNumber 1 |} ]).
Proof.
  split; [exact alice_store_lookup|]. split; [exact alice_owns|].
  split; [reflexivity|].
  exact (proj2 (proj1 (opposite_moves_cancel alice_store alice_id 1 2
                         "0xAB" block8 block8 alice_game
                         alice_store_lookup alice_owns) eq_refl)).
Defined.

Lemma repeated_move_is_noop_witness :
  games alice_store !! alice_id = Some alice_game
  /\ toLowerCase (owner alice_game) = toLowerCase "0xAB"
  /\ next_state
       (next_state alice_store
          (userMove alice_store alice_id "moveLeft" 1 "0xAB" block8))
       (userMove
          (next_state alice_store
             (userMove alice_store alice_id "moveLeft" 1 "0xAB" block8))
          alice_id "moveLeft" 2 "0xAB" block8)
     = next_state alice_store
         (userMove alice_store alice_id "moveLeft" 1 "0xAB" block8).
Proof.
  split; [exact alice_store_lookup|]. split; [exact alice_owns|].
  exact (proj1 (repeated_move_is_noop alice_store alice_id "moveLeft" 1 2
                  "0xAB" block8 block8 alice_game alice_store_lookup
                  alice_owns)).
Defined.

Lemma score_accumulates_witness :
  games alice_store !! alice_id = Some alice_game
  /\ toLowerCase (owner alice_game) = toLowerCase "0xAB"
  /\ 0 <= speed alice_game
  /\ safe (score alice_game)
  /\ safe (score alice_game + Z.of_nat 3 * speed alice_game)
  /\ exists g',
       games (run tag_hash (score_updates alice_id "0xAB" block8 [4; 5; 6])
                alice_store) !! alice_id = Some g'
       /\ score g' = score alice_game + Z.of_nat 3 * speed alice_game
       /\ speed g' = speed alice_game.
Proof.
  assert (H0 : 0 <= speed alice_game) by (cbn; lia).
  assert (H1 : safe (score alice_game))
    by (unfold safe, MAX_SAFE_INTEGER; cbn; lia).
  assert (H2 : safe (score alice_game + Z.of_nat 3 * speed alice_game))
    by (unfold safe, MAX_SAFE_INTEGER; cbn; lia).
  split; [exact alice_store_lookup|]. split; [exact alice_owns|].
  split; [exact H0|]. split; [exact H1|]. split; [exact H2|].
  exact (score_accumulates tag_hash alice_store alice_id "0xAB" block8
           [4; 5; 6] alice_game alice_store_lookup alice_owns H0 H1 H2).
Defined.

Lemma over_game_still_plays_witness :
  games alice_store !! alice_id = Some alice_game
  /\ toLowerCase (owner alice_game) = toLowerCase "0xAB"
  /\ safe (score alice_game + speed alice_game)
  /\ (carPosition alice_game = 1 ->
      logs_of
        (userMove (next_state alice_store
                     (gameOver alice_store alice_id true 500 "0xAB"))
           alice_id "moveLeft" 3 "0xAB" block8)
      = [ {| name := "CarMovedLeft"; value := VNumber 0 |} ]).
Proof.
  assert (Hs : safe (score alice_game + speed alice_game))
    by (unfold safe, MAX_SAFE_INTEGER; cbn; lia).
  split; [exact alice_store_lookup|]. split; [exact alice_owns|].
  split; [exact Hs|].
  intros Hc.
  exact (f_equal logs_of
           (proj2 (over_game_still_plays alice_store alice_id 500 3 "0xAB"
                     block8 alice_game alice_store_lookup alice_owns Hs)
              Hc)).
Defined.

Lemma consecutive_creates_distinct_witness :
  Inj (=) (=) tag_hash
  /\ toLowerCase "0xaB" = toLowerCase "0xAb"
  /\ newGameId tag_hash "0xaB" block8 alice_store
     <> newGameId tag_hash "0xaB" block8
          (fst (createGame tag_hash alice_store "0xAb" 3 200 "0xaB" block8)).
Proof.
  split; [exact tag_hash_inj|]. split; [reflexivity|].
  exact (proj1 (consecutive_creates_distinct tag_hash [alice_creates 2]
                  "0xAb" "0xAb" 3 4 200 300 "0xaB" block8 tag_hash_inj
                  eq_refl eq_refl)).
Defined.

Lemma store_size_counts_creates_witness :
  Inj (=) (=) tag_hash
  /\ size (games (run tag_hash alice_session initialState))
     = length (List.filter creates alice_session).
Proof.
  split; [exact tag_hash_inj|].
  exact (store_size_counts_creates tag_hash alice_session tag_hash_inj).
Defined.

Lemma score_never_below_start_witness :
  Forall (fun a => schema_ok a = true) alice_session
  /\ forall k g,
       games (run tag_hash alice_session initialState) !! k = Some g ->
       0 <= speed g /\ -1 <= score g.
Proof.
  assert (H : Forall (fun a => schema_ok a = true) alice_session)
    by (repeat constructor).
  split; [exact H|].
  exact (score_never_below_start tag_hash alice_session H).
Defined.

Lemma over_game_has_end_witness :
  games (run tag_hash alice_ends initialState) !! alice_id = Some alice_over
  /\ isGameOver alice_over = true
  /\ is_Some (endedAt alice_over).
Proof.
  split; [exact alice_ends_lookup|]. split; [reflexivity|].
  exact (over_game_has_end tag_hash alice_ends alice_id alice_over
           alice_ends_lookup eq_refl).
Defined.

Lemma generateObstacles_alternates_witness :
  0 <= 4
  /\ lane (generateObstacles (4 + 1)) = 1 - lane (generateObstacles 4).
Proof.
  assert (H : 0 <= 4) by lia.
  split; [exact H|]. exact (proj1 (generateObstacles_alternates 4 H)).
Defined.

Lemma generateObstacles_negative_odd_witness :
  -3 < 0 /\ Z.odd (-3) = true /\ lane (generateObstacles (-3)) = -1.
Proof.
  assert (H : -3 < 0) by lia.
  split; [exact H|]. split; [reflexivity|].
  exact (generateObstacles_negative_odd (-3) H eq_refl).
Defined.

Lemma caller_case_insensitive_witness :
  is_create (UserMove alice_id "moveLeft" 1) = false
  /\ toLowerCase "0xAB" = toLowerCase "0xab"
  /\ next_state alice_store
       (transitions tag_hash
          {| action := UserMove alice_id "moveLeft" 1;
             msgSender := "0xAB"; block := block8 |} alice_store)
     = next_state alice_store
         (transitions tag_hash
            {| action := UserMove alice_id "moveLeft" 1;
               msgSender := "0xab"; block := block8 |} alice_store).
Proof.
  split; [reflexivity|]. split; [reflexivity|].
  exact (proj1 (caller_case_insensitive tag_hash
                  (UserMove alice_id "moveLeft" 1) "0xAB" "0xab" block8
                  alice_store eq_refl eq_refl)).
Defined.

Lemma create_then_read_witness :
  toLowerCase "0xaB" = toLowerCase "0xAb"
  /\ (forall x, tag_hash x <> "")
  /\ no_errors None
  /\ postCreateGame None
       (Some (snd (createGame tag_hash initialState "0xAb" 2 100 "0xaB"
                     block7)))
     = {| status := 201;
          body := BGameId (VString (newGameId tag_hash "0xaB" block7
                                      initialState)) |}.
Proof.
  split; [reflexivity|]. split; [exact tag_hash_nonempty|].
  split; [left; reflexivity|].
  exact (proj1 (create_then_read tag_hash initialState "0xAb" 2 100 "0xaB"
                  block7 None eq_refl tag_hash_nonempty (or_introl eq_refl))).
Defined.

Lemma refused_create_answers_500_witness :
  toLowerCase "0xBEEF" <> toLowerCase "0xAb"
  /\ no_errors (Some [])
  /\ postCreateGame (Some [])
       (Some (snd (createGame tag_hash alice_store "0xAb" 2 100 "0xBEEF"
                     block8)))
     = {| status := 500; body := BError "Game ID not found in logs." |}.
Proof.
  assert (H : toLowerCase "0xBEEF" <> toLowerCase "0xAb") by discriminate.
  split; [exact H|]. split; [right; reflexivity|].
  exact (proj1 (refused_create_answers_500 tag_hash alice_store "0xAb" 2 100
                  "0xBEEF" block8 (Some []) H (or_intror eq_refl))).
Defined.

Lemma created_reply_carries_logged_id_witness :
  status (postCreateGame None
            (Some [ {| name := "GameCreated"; value := VString alice_id |} ]))
    = 201
  /\ no_errors None.
Proof.
  split; [reflexivity|].
  exact (proj1 (created_reply_carries_logged_id None
                  (Some [ {| name := "GameCreated";
                             value := VString alice_id |} ]) eq_refl)).
Defined.

Lemma refused_move_answers_200_witness :
  games alice_store !! alice_id = Some alice_game
  /\ toLowerCase (owner alice_game) <> toLowerCase "0xBEEF"
  /\ no_errors None
  /\ status (postMoveCar "moveLeft" None
               (Some (logs_of (userMove alice_store alice_id "moveLeft" 1
                                 "0xBEEF" block8)))) = 200.
Proof.
  assert (H : toLowerCase (owner alice_game) <> toLowerCase "0xBEEF")
    by discriminate.
  split; [exact alice_store_lookup|]. split; [exact H|].
  split; [left; reflexivity|].
  exact (proj1 (proj2 (refused_move_answers_200 alice_store alice_id
                         "moveLeft" 1 "0xBEEF" block8 alice_game None
                         alice_store_lookup H (or_introl eq_refl)))).
Defined.

Lemma getGame_returns_the_game_asked_for_witness :
  games (run tag_hash [alice_creates 2] initialState) !! alice_id
    = Some alice_game
  /\ getGame (run tag_hash [alice_creates 2] initialState) alice_id
     = {| status := 200; body := BGame alice_game |}
  /\ games (run tag_hash [alice_creates 2] initialState) !! "constructor"
     = None
  /\ inherited "constructor" = true
  /\ getGame (run tag_hash [alice_creates 2] initialState) "constructor"
     = {| status := 200; body := BInherited "constructor" |}.
Proof.
  assert (H : games (run tag_hash [alice_creates 2] initialState)
                !! "constructor" = None) by (vm_compute; reflexivity).
  split; [exact alice_store_lookup|].
  split; [exact (proj1 (proj1 (getGame_returns_the_game_asked_for tag_hash
                                 [alice_creates 2] alice_id)
                          alice_game alice_store_lookup))|].
  split; [exact H|]. split; [reflexivity|].
  exact (proj1 (proj2 (getGame_returns_the_game_asked_for tag_hash
                         [alice_creates 2] "constructor")) H eq_refl).
Defined.

Lemma newGameId_injective_witness :
  Inj (=) (=) tag_hash
  /\ newGameId tag_hash "0xaB" block8 alice_store
     = newGameId tag_hash "0xaB" block8 alice_store
  /\ size (games alice_store) = size (games alice_store).
Proof.
  split; [exact tag_hash_inj|]. split; [reflexivity|].
  exact (proj2 (proj2 (newGameId_injective tag_hash "0xaB" "0xaB" block8
                         block8 alice_store alice_store tag_hash_inj
                         eq_refl))).
Defined.

Lemma gameOver_reply_matches_event_witness :
  games alice_store !! alice_id = Some alice_game
  /\ toLowerCase (owner alice_game) = toLowerCase "0xAB"
  /\ no_errors None
  /\ exists msg,
       gameOver alice_store alice_id true 500 "0xAB"
       = Returns
           (next_state alice_store
              (gameOver alice_store alice_id true 500 "0xAB"),
            [ {| name := "GameOver"; value := VString msg |} ])
       /\ postGameOver alice_id true None
            (Some (logs_of (gameOver alice_store alice_id true 500 "0xAB")))
          = {| status := 200; body := BMessage msg |}.
Proof.
  split; [exact alice_store_lookup|]. split; [exact alice_owns|].
  split; [left; reflexivity|].
  exact (gameOver_reply_matches_event alice_store alice_id true 500 "0xAB"
           alice_game None alice_store_lookup alice_owns
           (or_introl eq_refl)).
Defined.
